(** * Legal act change tracker: the hash-chain core (src/hash_chain.py)

    A shallow embedding of the amendment ledger: Python strings as lists of
    Unicode code points, [json.dumps(..., sort_keys=True)], SHA-256 after
    FIPS 180-4, the [Amendment], [ChainNode] and [HashChain] classes with
    their exceptions and their audit log, and the rule-based summariser. *)

From Stdlib Require Import NArith ZArith Lia Bool Ascii String.
From stdpp Require Import base option list gmap.

Local Open Scope N_scope.

(* ====================================================================== *)
(** ** Python strings *)
(* ====================================================================== *)

(** A Python [str] is a sequence of Unicode code points. *)
Definition str : Type := list N.

(** [u "..."] reads a literal of this file (UTF-8 bytes) as a [str], so the
    tables below are written exactly as in the Python source. *)
Definition cont (b : N) : N := N.land b 0x3F.

Fixpoint utf8_decode (bs : list N) : str :=
  match bs with
  | [] => []
  | b0 :: r0 =>
    if b0 <? 0x80 then b0 :: utf8_decode r0
    else match r0 with
    | [] => [b0]
    | b1 :: r1 =>
      if b0 <? 0xE0 then
        (N.shiftl (N.land b0 0x1F) 6 + cont b1) :: utf8_decode r1
      else match r1 with
      | [] => [b0; b1]
      | b2 :: r2 =>
        if b0 <? 0xF0 then
          (N.shiftl (N.land b0 0x0F) 12 + N.shiftl (cont b1) 6 + cont b2)
            :: utf8_decode r2
        else match r2 with
        | [] => [b0; b1; b2]
        | b3 :: r3 =>
          (N.shiftl (N.land b0 0x07) 18 + N.shiftl (cont b1) 12
             + N.shiftl (cont b2) 6 + cont b3) :: utf8_decode r3
        end
      end
    end
  end.

Definition u (s : string) : str :=
  utf8_decode (map N_of_ascii (list_ascii_of_string s)).
Arguments u : simpl never.

(** [str.isspace] for one character: the code points Python treats as
    whitespace (also what [str.strip()] removes). *)
Definition isspace (c : N) : bool :=
  ((0x09 <=? c) && (c <=? 0x0D)) || ((0x1C <=? c) && (c <=? 0x20))
  || (c =? 0x85) || (c =? 0xA0) || (c =? 0x1680)
  || ((0x2000 <=? c) && (c <=? 0x200A))
  || (c =? 0x2028) || (c =? 0x2029) || (c =? 0x202F) || (c =? 0x205F)
  || (c =? 0x3000).

Fixpoint lstrip (s : str) : str :=
  match s with
  | c :: s' => if isspace c then lstrip s' else s
  | [] => []
  end.

Definition rstrip (s : str) : str := reverse (lstrip (reverse s)).

(** [s.strip()] *)
Definition strip (s : str) : str := rstrip (lstrip s).

(** Truth value of a string: [bool(s)], false exactly for the empty one. *)
Definition truthy (s : str) : bool :=
  match s with [] => false | _ => true end.

(** [not s.strip()] *)
Definition blank (s : str) : bool := negb (truthy (strip s)).

(** Equality of strings, [a == b]. *)
Definition str_eqb (a b : str) : bool := bool_decide (a = b).

(** [s.startswith(p)] *)
Fixpoint startswith (p s : str) : bool :=
  match p, s with
  | [], _ => true
  | a :: p', b :: s' => (a =? b) && startswith p' s'
  | _ :: _, [] => false
  end.

(** [s.replace(old, new)]: every non-overlapping occurrence of [old], found
    left to right, becomes [new].  [skip] counts the characters of a match
    that are still to be passed over.  With an empty [old], Python puts
    [new] before each character and at the end. *)
Fixpoint replace_from (old new : str) (skip : nat) (s : str) : str :=
  match s with
  | [] => []
  | c :: s' =>
    match skip with
    | S k => replace_from old new k s'
    | O =>
      if startswith old s
      then new ++ replace_from old new (pred (length old)) s'
      else c :: replace_from old new O s'
    end
  end.

Definition replace (old new s : str) : str :=
  match old with
  | [] => new ++ flat_map (fun c => c :: new) s
  | _ => replace_from old new O s
  end.

(** [s.rsplit(sep, 1)] for a one-character separator: split once, at the
    last occurrence of [sep]. *)
Fixpoint rsplit_last (sep : N) (s : str) : option (str * str) :=
  match s with
  | [] => None
  | c :: s' =>
    match rsplit_last sep s' with
    | Some (a, b) => Some (c :: a, b)
    | None => if c =? sep then Some ([], s') else None
    end
  end.

Definition rsplit1 (sep : N) (s : str) : list str :=
  match rsplit_last sep s with
  | Some (a, b) => [a; b]
  | None => [s]
  end.

(** Case mappings.  They agree with Python on every code point below
    U+0100 that maps to a single character, and leave the others alone;
    the summariser applies them to the constants of its table only, whose
    cased characters are all below U+0100. *)
Definition islower (c : N) : bool :=
  ((0x61 <=? c) && (c <=? 0x7A)) || (c =? 0xAA) || (c =? 0xB5) || (c =? 0xBA)
  || ((0xDF <=? c) && (c <=? 0xF6)) || ((0xF8 <=? c) && (c <=? 0xFF)).

Definition upper (c : N) : N :=
  if ((0x61 <=? c) && (c <=? 0x7A))
     || ((0xE0 <=? c) && (c <=? 0xFE) && negb (c =? 0xF7))
  then c - 32 else c.

Definition lower (c : N) : N :=
  if ((0x41 <=? c) && (c <=? 0x5A))
     || ((0xC0 <=? c) && (c <=? 0xDE) && negb (c =? 0xD7))
  then c + 32 else c.

(** [s.capitalize()] *)
Definition capitalize (s : str) : str :=
  match s with
  | [] => []
  | c :: s' => upper c :: map lower s'
  end.

(* ====================================================================== *)
(** ** [json.dumps(v, sort_keys=True)] *)
(* ====================================================================== *)

(** The Python values that the ledger puts in dictionaries. *)
#[warnings="-register-all"] Inductive pyval : Type :=
| VNone
| VInt (z : Z)
| VStr (s : str)
| VDict (items : list (str * pyval)).

Definition hexdigit (n : N) : N := if n <? 10 then 0x30 + n else 0x57 + n.

Definition nibble (k n : N) : N := N.land (N.shiftr n k) 0xF.

(** ['{0:04x}'.format(n)] *)
Definition hex4 (n : N) : str := map (fun k => hexdigit (nibble k n)) [12; 8; 4; 0].

Definition backslash : N := 0x5C.
Definition dquote : N := 0x22.

(** The encoder's [ensure_ascii] escaping of one character: the short
    escapes, printable ASCII as it is, [\uXXXX] for the rest, as a
    surrogate pair above U+FFFF. *)
Definition escape_char (c : N) : str :=
  if c =? backslash then [backslash; backslash]
  else if c =? dquote then [backslash; dquote]
  else if c =? 0x08 then backslash :: u "b"
  else if c =? 0x0C then backslash :: u "f"
  else if c =? 0x0A then backslash :: u "n"
  else if c =? 0x0D then backslash :: u "r"
  else if c =? 0x09 then backslash :: u "t"
  else if (0x20 <=? c) && (c <=? 0x7E) then [c]
  else if c <? 0x10000 then backslash :: u "u" ++ hex4 c
  else
    let n := c - 0x10000 in
    let s1 := N.lor 0xD800 (N.land (N.shiftr n 10) 0x3FF) in
    let s2 := N.lor 0xDC00 (N.land n 0x3FF) in
    backslash :: u "u" ++ hex4 s1 ++ backslash :: u "u" ++ hex4 s2.

Definition json_string (s : str) : str :=
  dquote :: flat_map escape_char s ++ [dquote].

(** [str(z)] for an integer: its decimal digits, after a minus sign when
    it is negative. *)
Fixpoint digits (d : Decimal.uint) : str :=
  match d with
  | Decimal.Nil => []
  | Decimal.D0 d' => 0x30 :: digits d'
  | Decimal.D1 d' => 0x31 :: digits d'
  | Decimal.D2 d' => 0x32 :: digits d'
  | Decimal.D3 d' => 0x33 :: digits d'
  | Decimal.D4 d' => 0x34 :: digits d'
  | Decimal.D5 d' => 0x35 :: digits d'
  | Decimal.D6 d' => 0x36 :: digits d'
  | Decimal.D7 d' => 0x37 :: digits d'
  | Decimal.D8 d' => 0x38 :: digits d'
  | Decimal.D9 d' => 0x39 :: digits d'
  end.

Definition str_of_int (z : Z) : str :=
  match z with
  | Z0 => u "0"
  | Zpos p => digits (Pos.to_uint p)
  | Zneg p => u "-" ++ digits (Pos.to_uint p)
  end.

(** Order of strings, by code points. *)
Fixpoint str_leb (a b : str) : bool :=
  match a, b with
  | [], _ => true
  | _ :: _, [] => false
  | x :: a', y :: b' => (x <? y) || ((x =? y) && str_leb a' b')
  end.

Fixpoint insert_by_key (kv : str * str) (l : list (str * str)) : list (str * str) :=
  match l with
  | [] => [kv]
  | kv' :: l' =>
    if str_leb kv.1 kv'.1 then kv :: l else kv' :: insert_by_key kv l'
  end.

Definition sort_by_key (l : list (str * str)) : list (str * str) :=
  foldr insert_by_key [] l.

(** [sep.join(parts)] *)
Fixpoint join (sep : str) (parts : list str) : str :=
  match parts with
  | [] => []
  | [p] => p
  | p :: rest => p ++ sep ++ join sep rest
  end.

(** The default separators [", "] and [": "]; the items of a dictionary in
    the order of their keys. *)
Fixpoint json_dumps (v : pyval) : str :=
  match v with
  | VNone => u "null"
  | VInt z => str_of_int z
  | VStr s => json_string s
  | VDict items =>
    let rendered :=
      map (fun kv => match kv with (k, x) => (k, json_dumps x) end) items in
    u "{"
      ++ join (u ", ")
           (map (fun kv => json_string kv.1 ++ u ": " ++ kv.2) (sort_by_key rendered))
      ++ u "}"
  end.

(** [s.encode()]: UTF-8; a surrogate code point cannot be encoded and
    raises [UnicodeEncodeError] (here [None]). *)
Definition utf8_encode_char (c : N) : option (list N) :=
  if c <? 0x80 then Some [c]
  else if c <? 0x800 then
    Some [N.lor 0xC0 (N.shiftr c 6); N.lor 0x80 (cont c)]
  else if (0xD800 <=? c) && (c <=? 0xDFFF) then None
  else if c <? 0x10000 then
    Some [N.lor 0xE0 (N.shiftr c 12); N.lor 0x80 (cont (N.shiftr c 6));
          N.lor 0x80 (cont c)]
  else
    Some [N.lor 0xF0 (N.shiftr c 18); N.lor 0x80 (cont (N.shiftr c 12));
          N.lor 0x80 (cont (N.shiftr c 6)); N.lor 0x80 (cont c)].

Fixpoint encode (s : str) : option (list N) :=
  match s with
  | [] => Some []
  | c :: s' =>
    match utf8_encode_char c, encode s' with
    | Some bs, Some r => Some (bs ++ r)
    | _, _ => None
    end
  end.

(** In the examples, [q] reads an apostrophe of the literal as a double
    quote. *)
Definition q (s : string) : str :=
  map (fun c => if c =? 0x27 then dquote else c) (u s).

(* ====================================================================== *)
(** ** [hashlib.sha256(data).hexdigest()] *)
(* ====================================================================== *)

Module SHA256.

Definition mask32 : N := 0xFFFFFFFF.
Definition wrap (x : N) : N := N.land x mask32.
Definition add32 (x y : N) : N := wrap (x + y).
Definition rotr (n x : N) : N := N.lor (N.shiftr x n) (wrap (N.shiftl x (32 - n))).
Definition not32 (x : N) : N := N.lxor x mask32.

Definition choose (x y z : N) : N := N.lxor (N.land x y) (N.land (not32 x) z).
Definition majority (x y z : N) : N :=
  N.lxor (N.lxor (N.land x y) (N.land x z)) (N.land y z).
Definition big_sigma0 (x : N) : N := N.lxor (N.lxor (rotr 2 x) (rotr 13 x)) (rotr 22 x).
Definition big_sigma1 (x : N) : N := N.lxor (N.lxor (rotr 6 x) (rotr 11 x)) (rotr 25 x).
Definition small_sigma0 (x : N) : N := N.lxor (N.lxor (rotr 7 x) (rotr 18 x)) (N.shiftr x 3).
Definition small_sigma1 (x : N) : N := N.lxor (N.lxor (rotr 17 x) (rotr 19 x)) (N.shiftr x 10).

(** The constants are the first 32 bits of the fractional parts of the
    square roots (initial state) and cube roots (round constants) of the
    first primes; they are computed here rather than listed. *)
Definition primes : list N :=
  [2; 3; 5; 7; 11; 13; 17; 19; 23; 29; 31; 37; 41; 43; 47; 53;
   59; 61; 67; 71; 73; 79; 83; 89; 97; 101; 103; 107; 109; 113; 127; 131;
   137; 139; 149; 151; 157; 163; 167; 173; 179; 181; 191; 193; 197; 199; 211; 223;
   227; 229; 233; 239; 241; 251; 257; 263; 269; 271; 277; 281; 283; 293; 307; 311].

(** Integer cube root of a number below [2^108], bit by bit. *)
Definition cube_root (n : N) : N :=
  fold_left
    (fun r b => let r' := r + N.shiftl 1 (N.of_nat b) in
                if r' * r' * r' <=? n then r' else r)
    (rev (seq 0 36)) 0.

Definition round_constants : list N :=
  Eval vm_compute in map (fun p => wrap (cube_root (N.shiftl p 96))) primes.

Definition initial_words : list N :=
  Eval vm_compute in map (fun p => wrap (N.sqrt (N.shiftl p 64))) (take 8 primes).

Record state : Type := State { sa : N; sb : N; sc : N; sd : N;
                               se : N; sf : N; sg : N; sh : N }.

Definition state_of_words (ws : list N) : state :=
  State (nth 0 ws 0) (nth 1 ws 0) (nth 2 ws 0) (nth 3 ws 0)
        (nth 4 ws 0) (nth 5 ws 0) (nth 6 ws 0) (nth 7 ws 0).

Definition words_of_state (s : state) : list N :=
  [sa s; sb s; sc s; sd s; se s; sf s; sg s; sh s].

(** Big-endian number of a list of bytes. *)
Definition of_bytes (bs : list N) : N := fold_left (fun acc b => acc * 256 + b) bs 0.

(** [k] big-endian bytes of [n]. *)
Definition to_bytes (k : nat) (n : N) : list N :=
  map (fun i => N.land (N.shiftr n (8 * N.of_nat i)) 0xFF) (rev (seq 0 k)).

(** Padding: a one bit, zero bits up to 56 modulo 64 bytes, and the bit
    length in eight bytes. *)
Definition pad (msg : list N) : list N :=
  let len := N.of_nat (length msg) in
  let zeros := N.to_nat ((119 - len mod 64) mod 64) in
  msg ++ 0x80 :: repeat 0 zeros ++ to_bytes 8 (8 * len).

(** The message schedule: sixteen words of the block, then forty-eight
    derived ones. *)
Fixpoint extend (n : nat) (w : list N) : list N :=
  match n with
  | O => w
  | S n' =>
    let t := length w in
    let x := add32 (add32 (small_sigma1 (nth (t - 2) w 0)) (nth (t - 7) w 0))
                   (add32 (small_sigma0 (nth (t - 15) w 0)) (nth (t - 16) w 0)) in
    extend n' (w ++ [x])
  end.

Definition schedule (block : list N) : list N :=
  extend 48 (map (fun i => of_bytes (take 4 (drop (4 * i) block))) (seq 0 16)).

Definition round (s : state) (kw : N * N) : state :=
  let t1 := add32 (add32 (add32 (sh s) (big_sigma1 (se s)))
                         (add32 (choose (se s) (sf s) (sg s)) kw.1)) kw.2 in
  let t2 := add32 (big_sigma0 (sa s)) (majority (sa s) (sb s) (sc s)) in
  State (add32 t1 t2) (sa s) (sb s) (sc s) (add32 (sd s) t1) (se s) (sf s) (sg s).

Definition compress (s : state) (block : list N) : state :=
  let r := fold_left round (combine round_constants (schedule block)) s in
  State (add32 (sa s) (sa r)) (add32 (sb s) (sb r)) (add32 (sc s) (sc r))
        (add32 (sd s) (sd r)) (add32 (se s) (se r)) (add32 (sf s) (sf r))
        (add32 (sg s) (sg r)) (add32 (sh s) (sh r)).

Fixpoint blocks (n : nat) (bs : list N) (s : state) : state :=
  match n with
  | O => s
  | S n' => blocks n' (drop 64 bs) (compress s (take 64 bs))
  end.

Definition digest (msg : list N) : state :=
  let p := pad msg in
  blocks (length p / 64) p (state_of_words initial_words).

(** Eight lowercase hexadecimal digits of a word. *)
Definition hex8 (w : N) : str :=
  map (fun k => hexdigit (nibble k w)) [28; 24; 20; 16; 12; 8; 4; 0].

Definition hexdigest (msg : list N) : str :=
  flat_map hex8 (words_of_state (digest msg)).

End SHA256.

(* ====================================================================== *)
(** ** Exceptions *)
(* ====================================================================== *)

(** The messages of the exceptions the core raises.  [Type_must_be_one_of]
    stands for ["Type must be one of: {...}"], whose tail is the printed
    form of a set. *)
Inductive message : Type :=
| Content_required
| Type_must_be_one_of
| Author_required
| Act_ID_required
| Act_title_required
| Hash_calculation_failed.

Inductive exn : Type :=
| ValueError (m : message)
| RuntimeError (m : message)
| UnicodeEncodeError
| IndexError
| AttributeError.

Inductive result (A : Type) : Type :=
| Ok (a : A)
| Raise (e : exn).
Arguments Ok {A} a.
Arguments Raise {A} e.

#[global] Instance message_eq_dec : EqDecision message.
Proof. solve_decision. Defined.
#[global] Instance exn_eq_dec : EqDecision exn.
Proof. solve_decision. Defined.
#[global] Instance result_eq_dec {A : Type} `{EqDecision A} : EqDecision (result A).
Proof. solve_decision. Defined.

#[global] Instance result_ret : MRet result := @Ok.
#[global] Instance result_bind : MBind result := fun A B f r =>
  match r with
  | Ok a => f a
  | Raise e => Raise e
  end.

(** The spec's names for the three validation failures. *)
Definition EmptyContent : exn := ValueError Content_required.
Definition InvalidCategory : exn := ValueError Type_must_be_one_of.
Definition EmptyAuthor : exn := ValueError Author_required.

(* ====================================================================== *)
(** ** class Config *)
(* ====================================================================== *)

Module Config.
Definition MAX_CHAIN_SIZE : Z := 10000.
End Config.

(** hash_chain.py has a second [class Config], at line 685: the loader of
    config.json, which has no attribute [MAX_CHAIN_SIZE].  [Config] is a
    global of the module, looked up when a method runs.  While the file
    runs as a script the name is bound to the class above (the script
    exits before it reaches line 685); once the module has been imported
    it is bound to the second class. *)
Inductive Config_binding : Type :=
| Config_settings
| Config_loader.

(** [Config.MAX_CHAIN_SIZE], under either binding. *)
Definition Config_MAX_CHAIN_SIZE (cls : Config_binding) : result Z :=
  match cls with
  | Config_settings => Ok Config.MAX_CHAIN_SIZE
  | Config_loader => Raise AttributeError
  end.

(* ====================================================================== *)
(** ** class LLMSummaryGenerator *)
(* ====================================================================== *)

Record LLMSummaryGenerator : Type := { api_key : option str }.

Definition use_real_llm (self : LLMSummaryGenerator) : bool :=
  bool_decide (api_key self ≠ None).

(** The table of replacements, in the order of the dictionary literal. *)
Definition REPLACEMENTS : list (str * str) :=
  [ (u "niniejszym ustawÄ…", u "tÄ… ustawÄ…");
    (u "niezaleÅ¼nie od", u "mimo Å¼e");
    (u "zgodnie z", u "wedÅ‚ug");
    (u "powinien", u "musi"); (u "powinna", u "musi"); (u "powinno", u "musi");
    (u "powinni", u "muszÄ…");
    (u "obowiÄ…zany", u "zobowiÄ…zany"); (u "obowiÄ…zana", u "zobowiÄ…zana");
    (u "uprawniony", u "ma prawo"); (u "uprawniona", u "ma prawo");
    (u "wspomniany wyÅ¼ej", u "wymieniony wyÅ¼ej");
    (u "w ktÃ³rym", u "gdzie"); (u "w ktÃ³rej", u "gdzie");
    (u "nastÄ™pnie", u "potem"); (u "wÃ³wczas", u "wtedy");
    (u "ustawa", u "prawo"); (u "ustawy", u "praw");
    (u "artykuÅ‚", u "Art."); (u "artykuÅ‚u", u "Art.");
    (u "przepis", u "reguÅ‚a"); (u "przepisy", u "reguÅ‚y");
    (u "prawo do", u "moÅ¼e"); (u "obowiÄ…zek", u "musi");
    (u "odpowiedzialnoÅ›Ä‡", u "odpowiada za");
    (u "grzywna", u "kara pieniÄ™Å¼na"); (u "sankcja", u "kara");
    (u "podatek", u "opÅ‚ata rzÄ…dowa");
    (u "osoba prawna", u "organizacja"); (u "osoba fizyczna", u "osoba prywatna");
    (u "przysÅ‚uguje", u "ma prawo"); (u "upowaÅ¼nia", u "daje prawo");
    (u "zabrania", u "nie pozwala"); (u "dopuszcza", u "pozwala");
    (u "hereby", u "tÄ… ustawÄ…"); (u "notwithstanding", u "mimo Å¼e");
    (u "shall", u "musi"); (u "wherein", u "gdzie"); (u "thereof", u "tego") ].

(** One turn of the loop over the table: the key, then its capitalised
    form when the key starts with a lowercase letter.  (No key of the
    table is empty, see [REPLACEMENTS_keys]; [legal[0]] is always there.) *)
Definition substitute (simple : str) (entry : str * str) : str :=
  let (legal, plain) := entry in
  let simple := replace legal plain simple in
  match legal with
  | c :: rest =>
    if islower c
    then replace (upper c :: rest) (capitalize plain) simple
    else simple
  | [] => simple
  end.

Definition space : N := 0x20.

(** The text after the replacements and the two normalisations, before
    the truncation. *)
Definition substituted (text : str) : str :=
  let simple := fold_left substitute REPLACEMENTS text in
  let simple := replace (u "ARTYKUÅ") (u "ArtykuÅ‚") simple in
  replace (u "USTAWA") (u "Ustawa") simple.

Definition _fallback_simplify (text : str) : str :=
  let simple := substituted text in
  if (200 <? length simple)%nat
  then default [] (head (rsplit1 space (take 200 simple))) ++ u "..."
  else simple.

Definition simplify (self : LLMSummaryGenerator) (text : str) : str :=
  if blank text then u "No content"
  else if use_real_llm self then _fallback_simplify text
  else _fallback_simplify text.

(* ====================================================================== *)
(** ** class Amendment *)
(* ====================================================================== *)

Record Amendment : Type := {
  content : str;
  change_type : str;
  author : str;
  timestamp : str;
  summary : str
}.

Definition VALID_TYPES : gset str := {[ u "substantive"; u "editorial" ]}.

(** [summary or (llm.simplify(content) if llm else "No summary")]: a
    summary that is [None] or empty is falsy. *)
Definition summary_or (given : option str) (llm : option LLMSummaryGenerator)
    (content : str) : str :=
  let otherwise :=
    match llm with
    | Some g => simplify g content
    | None => u "No summary"
    end in
  match given with
  | Some s => if truthy s then s else otherwise
  | None => otherwise
  end.

(** [Amendment(content, change_type, author, summary, llm)]; [now] is the
    reading of the clock, [datetime.now().isoformat()]. *)
Definition Amendment_init (content change_type author : str)
    (summary : option str) (llm : option LLMSummaryGenerator) (now : str)
    : result Amendment :=
  if blank content then Raise (ValueError Content_required)
  else if bool_decide (change_type ∉ VALID_TYPES)
  then Raise (ValueError Type_must_be_one_of)
  else if blank author then Raise (ValueError Author_required)
  else Ok {| content := content;
             change_type := change_type;
             author := author;
             timestamp := now;
             summary := summary_or summary llm content |}.

Definition to_dict (self : Amendment) : pyval :=
  VDict [ (u "content", VStr (content self));
          (u "change_type", VStr (change_type self));
          (u "author", VStr (author self));
          (u "summary", VStr (summary self));
          (u "timestamp", VStr (timestamp self)) ].

(* ====================================================================== *)
(** ** class ChainNode *)
(* ====================================================================== *)

Record ChainNode : Type := {
  amendment : Amendment;
  parent_hash : option str;
  hash : str
}.

(** The parent hash of the first node: Python's [None]. *)
Definition genesis : option str := None.

Definition pyval_of_optional (o : option str) : pyval :=
  match o with
  | Some s => VStr s
  | None => VNone
  end.

(** The dictionary that is serialised and hashed. *)
Definition hash_input (a : Amendment) (parent : option str) : pyval :=
  VDict [ (u "amendment", to_dict a); (u "parent_hash", pyval_of_optional parent) ].

(** [self._calculate_hash()], which reads [self.amendment] and
    [self.parent_hash]; any exception inside becomes a [RuntimeError]. *)
Definition _calculate_hash (a : Amendment) (parent : option str) : result str :=
  let data := json_dumps (hash_input a parent) in
  match encode data with
  | Some bytes => Ok (SHA256.hexdigest bytes)
  | None => Raise (RuntimeError Hash_calculation_failed)
  end.

Definition ChainNode_init (a : Amendment) (parent : option str) : result ChainNode :=
  h ← _calculate_hash a parent;
  mret {| amendment := a; parent_hash := parent; hash := h |}.

Definition verify (self : ChainNode) : result bool :=
  h ← _calculate_hash (amendment self) (parent_hash self);
  mret (str_eqb (hash self) h).

(* ====================================================================== *)
(** ** crypto_utils.py: the second [ChainNode] *)
(* ====================================================================== *)

Module crypto_utils.

Record Amendment : Type := {
  content : str;
  change_type : str;
  author : str;
  timestamp : str;
  summary : str
}.

Definition to_dict (self : Amendment) : pyval :=
  VDict [ (u "content", VStr (content self));
          (u "change_type", VStr (change_type self));
          (u "author", VStr (author self));
          (u "summary", VStr (summary self));
          (u "timestamp", VStr (timestamp self)) ].

Record ChainNode : Type := {
  amendment : Amendment;
  parent_hash : option str;
  hash : str
}.

(** No handler here: a failing [encode] raises as it is. *)
Definition _calculate_hash (a : Amendment) (parent : option str) : result str :=
  let data := json_dumps
    (VDict [ (u "amendment", to_dict a);
             (u "parent_hash", pyval_of_optional parent) ]) in
  match encode data with
  | Some bytes => Ok (SHA256.hexdigest bytes)
  | None => Raise UnicodeEncodeError
  end.

Definition verify (self : ChainNode) : result bool :=
  h ← _calculate_hash (amendment self) (parent_hash self);
  mret (str_eqb (hash self) h).

End crypto_utils.

(* ====================================================================== *)
(** ** class AuditLog and class HashChain *)
(* ====================================================================== *)

(** One call of [AuditLog.log(event, details)].  The [audit] field of a
    ledger below is the sequence of the calls that its methods made, in
    order.  What reaches the file is another matter: the logger "audit"
    belongs to the whole process and every [AuditLog()] adds one more
    handler on audit.log to it, so a call writes its line once for each
    ledger built so far.  The lines of the file are not modelled. *)
Record audit_record : Type := {
  event : str;
  details : list (str * pyval)
}.

Record HashChain : Type := {
  act_id : str;
  act_title : str;
  chain : list ChainNode;
  llm : option LLMSummaryGenerator;
  audit : list audit_record
}.

Definition HashChain_init (act_id act_title : str)
    (llm : option LLMSummaryGenerator) : result HashChain :=
  if blank act_id then Raise (ValueError Act_ID_required)
  else if blank act_title then Raise (ValueError Act_title_required)
  else Ok {| act_id := act_id; act_title := act_title; chain := [];
             llm := llm; audit := [] |}.

(** A method of [HashChain]: it returns or raises, and leaves the object
    in a new state. *)
Definition method (A : Type) : Type := HashChain → result A * HashChain.

#[global] Instance method_ret : MRet method := fun A a self => (Ok a, self).
#[global] Instance method_bind : MBind method := fun A B f m self =>
  match m self with
  | (Ok a, self') => f a self'
  | (Raise e, self') => (Raise e, self')
  end.

Definition get_self : method HashChain := fun self => (Ok self, self).

(** A call that can raise and touches no state. *)
Definition call {A : Type} (r : result A) : method A := fun self => (r, self).

(** [self.audit.log(event, details)]: one more call in the trace. *)
Definition audit_log (ev : str) (ds : list (str * pyval)) : method unit :=
  fun self =>
    (Ok tt, {| act_id := act_id self; act_title := act_title self;
               chain := chain self; llm := llm self;
               audit := audit self ++ [{| event := ev; details := ds |}] |}).

(** [self.chain.append(node)] *)
Definition chain_append (node : ChainNode) : method unit :=
  fun self =>
    (Ok tt, {| act_id := act_id self; act_title := act_title self;
               chain := chain self ++ [node]; llm := llm self;
               audit := audit self |}).

(** [seq[i]] for an index that is not negative. *)
Definition item {A : Type} (l : list A) (i : nat) : result A :=
  match l !! i with
  | Some x => Ok x
  | None => Raise IndexError
  end.

Definition add_amendment (a : Amendment) : method str :=
  self ← get_self;
  let parent_hash :=
    match last (chain self) with
    | Some tail => Some (hash tail)
    | None => None
    end in
  node ← call (ChainNode_init a parent_hash);
  chain_append node;;
  audit_log (u "amendment_added")
    [ (u "act", VStr (act_id self));
      (u "hash", VStr (take 16 (hash node)));
      (u "author", VStr (author a)) ];;
  mret (hash node).

Definition history_row (i : nat) (node : ChainNode) : pyval :=
  VDict [ (u "version", VInt (Z.of_nat i + 1));
          (u "hash", VStr (hash node));
          (u "parent_hash", pyval_of_optional (parent_hash node));
          (u "amendment", to_dict (amendment node)) ].

Definition get_history : method (list pyval) :=
  self ← get_self;
  mret (imap history_row (chain self)).

(** The loop of [verify_integrity] from index [i] on, [nodes] being the
    nodes still to visit; after the last one the chain is reported valid. *)
Fixpoint verify_from (i : nat) (nodes : list ChainNode) : method bool :=
  match nodes with
  | [] =>
    self ← get_self;
    audit_log (u "chain_verified")
      [ (u "act", VStr (act_id self));
        (u "status", VStr (u "valid"));
        (u "amendments", VInt (Z.of_nat (length (chain self)))) ];;
    mret true
  | node :: rest =>
    self ← get_self;
    ok ← call (verify node);
    if negb ok then
      audit_log (u "tampering_detected")
        [ (u "act", VStr (act_id self));
          (u "node", VInt (Z.of_nat i));
          (u "reason", VStr (u "hash_mismatch")) ];;
      mret false
    else
      broken ←
        (if bool_decide (0 < i)%nat then
           prev ← call (item (chain self) (i - 1));
           mret (bool_decide (parent_hash node ≠ Some (hash prev)))
         else mret false);
      if (broken : bool) then
        audit_log (u "tampering_detected")
          [ (u "act", VStr (act_id self));
            (u "node", VInt (Z.of_nat i));
            (u "reason", VStr (u "parent_link_broken")) ];;
        mret false
      else verify_from (S i) rest
  end.

(** [self.verify_integrity()], [cls] being what the global [Config] is
    bound to when the method runs.  [Config.MAX_CHAIN_SIZE] is read in the
    first test, after [len(self.chain)]: when the attribute is missing the
    method raises there, before any check and any call of the log. *)
Definition verify_integrity (cls : Config_binding) : method bool :=
  self ← get_self;
  limit ← call (Config_MAX_CHAIN_SIZE cls);
  if bool_decide (limit < Z.of_nat (length (chain self)))%Z then
    audit_log (u "chain_too_large")
      [ (u "act", VStr (act_id self));
        (u "size", VInt (Z.of_nat (length (chain self)))) ];;
    mret false
  else verify_from 0 (chain self).

(** A run of [add_amendment], one call per amendment, with the hashes the
    calls returned. *)
Fixpoint add_all (ams : list Amendment) : method (list str) :=
  match ams with
  | [] => mret []
  | a :: rest =>
    h ← add_amendment a;
    hs ← add_all rest;
    mret (h :: hs)
  end.

(* ====================================================================== *)
(** ** Predicates used in the statements *)
(* ====================================================================== *)

(** Empty or made of whitespace only. *)
Definition whitespace_only (s : str) : Prop := Forall (fun c => isspace c = true) s.

(** The two recognised types of change. *)
Definition valid_type (t : str) : Prop := t = u "substantive" ∨ t = u "editorial".

Definition ascii (s : str) : Prop := Forall (fun c => c < 0x80) s.

Definition ascii_item (kv : str * str) : Prop := ascii kv.2.

Definition is_hexdigit (c : N) : bool :=
  ((0x30 <=? c) && (c <=? 0x39)) || ((0x61 <=? c) && (c <=? 0x66)).

(** What a node's hash has to be: the digest of the serialised node. *)
Definition entry_digest (a : Amendment) (parent : option str) : str :=
  SHA256.hexdigest (json_dumps (hash_input a parent)).
Arguments entry_digest : simpl never.

(** The first check of [verify_integrity]: the stored hash of a node is
    the one recomputed from its fields. *)
Definition hash_check (node : ChainNode) : Prop :=
  _calculate_hash (amendment node) (parent_hash node) = Ok (hash node).

#[global] Instance hash_check_dec (node : ChainNode) : Decision (hash_check node).
Proof. unfold hash_check. apply _. Defined.

(** The second check, for the node at index [i]: its parent hash is the
    stored hash of the node before it (nothing is asked of the first
    node). *)
Definition link_check (c : list ChainNode) (i : nat) (node : ChainNode) : Prop :=
  ∀ prev : ChainNode,
    (0 < i)%nat → c !! (i - 1)%nat = Some prev → parent_hash node = Some (hash prev).

Definition passes (c : list ChainNode) (i : nat) (node : ChainNode) : Prop :=
  hash_check node ∧ link_check c i node.

(** The object after one more line in its audit log, and the lines the
    methods write. *)
Definition logged (self : HashChain) (r : audit_record) : HashChain :=
  {| act_id := act_id self; act_title := act_title self; chain := chain self;
     llm := llm self; audit := audit self ++ [r] |}.

Definition tampering_record (self : HashChain) (i : nat) (reason : str) : audit_record :=
  {| event := u "tampering_detected";
     details := [ (u "act", VStr (act_id self));
                  (u "node", VInt (Z.of_nat i));
                  (u "reason", VStr reason) ] |}.

Definition verified_record (self : HashChain) : audit_record :=
  {| event := u "chain_verified";
     details := [ (u "act", VStr (act_id self));
                  (u "status", VStr (u "valid"));
                  (u "amendments", VInt (Z.of_nat (length (chain self)))) ] |}.

Definition too_large_record (self : HashChain) : audit_record :=
  {| event := u "chain_too_large";
     details := [ (u "act", VStr (act_id self));
                  (u "size", VInt (Z.of_nat (length (chain self)))) ] |}.

(** The tail hash that the next node will take as its parent. *)
Definition tail_hash (c : list ChainNode) : option str :=
  match last c with
  | Some tail => Some (hash tail)
  | None => None
  end.

(** Nodes linked one after the other, the first to [parent]. *)
Fixpoint chained (parent : option str) (nodes : list ChainNode) : Prop :=
  match nodes with
  | [] => True
  | node :: rest => parent_hash node = parent ∧ chained (Some (hash node)) rest
  end.

(** The keys of a dictionary, in order. *)
Definition keys (v : pyval) : list str :=
  match v with
  | VDict items => map fst items
  | _ => []
  end.

(** The summary the specification's sentence would give to a long text:
    cut at the last whitespace character among the first 200. *)
Fixpoint last_whitespace (s : str) : option (str * str) :=
  match s with
  | [] => None
  | c :: s' =>
    match last_whitespace s' with
    | Some (a, b) => Some (c :: a, b)
    | None => if isspace c then Some ([], s') else None
    end
  end.

Definition cut_at_whitespace (simple : str) : option str :=
  match last_whitespace (take 200 simple) with
  | Some (a, _) => Some (a ++ u "...")
  | None => None
  end.

(** The cases of a validation: every side is a constructor or a decided
    condition. *)
Ltac settle_outcome :=
  repeat split; intros;
  repeat match goal with
  | H : _ ∧ _ |- _ => destruct H
  | H : ∃ _, _ |- _ => destruct H
  | H : Ok _ = Ok _ |- _ => injection H as <-
  end;
  try discriminate; try congruence; try tauto; try reflexivity;
  try (eexists; reflexivity).

Ltac run_method :=
  cbv beta iota delta
    [mbind mret method_bind method_ret result_bind result_ret
     get_self call audit_log chain_append].

(* ====================================================================== *)
(** ** Example data *)
(* ====================================================================== *)

(** The amendments of the scenario of the specification, as [Amendment]
    builds them. *)
Definition example_time : str := u "2024-12-01T10:00:00.000001".

Definition example_amendment (text who : str) : Amendment :=
  {| content := text; change_type := u "substantive"; author := who;
     timestamp := example_time; summary := u "No summary" |}.

Definition example_amendments : list Amendment :=
  [ example_amendment (u "A") (u "Alice");
    example_amendment (u "B") (u "Bob");
    example_amendment (u "C") (u "Carol") ].

Definition fresh_ledger : HashChain :=
  {| act_id := u "ACT-1"; act_title := u "Test Act"; chain := [];
     llm := None; audit := [] |}.

Definition example_ledger : HashChain := (add_all example_amendments fresh_ledger).2.

(** A ledger above the maximum size, and a long text whose only whitespace
    is a tab. *)
Definition oversized_ledger : HashChain :=
  {| act_id := u "ACT-1"; act_title := u "Test Act";
     chain := repeat {| amendment := example_amendment (u "A") (u "Alice");
                        parent_hash := None; hash := [] |} (Z.to_nat 10001);
     llm := None; audit := [] |}.

Definition tabbed_text : str := u "a	b" ++ repeat 0x78 300.

(* ====================================================================== *)
(** ** Changes made to a stored chain behind the methods' back *)
(* ====================================================================== *)

(** The object with another list of nodes: what is left after statements
    such as [chain.chain[i].hash = h], [chain.chain.insert(i, node)] or
    [del chain.chain[k:]] of the repository's tampering tests. *)
Definition with_chain (self : HashChain) (c : list ChainNode) : HashChain :=
  {| act_id := act_id self; act_title := act_title self; chain := c;
     llm := llm self; audit := audit self |}.

(** [node.hash = h] *)
Definition set_hash (h : str) (node : ChainNode) : ChainNode :=
  {| amendment := amendment node; parent_hash := parent_hash node; hash := h |}.

(** [node.parent_hash = p] *)
Definition set_parent_hash (p : option str) (node : ChainNode) : ChainNode :=
  {| amendment := amendment node; parent_hash := p; hash := hash node |}.

(** [node.amendment = a], also the effect of assigning a field of the
    amendment the node holds. *)
Definition set_amendment (a : Amendment) (node : ChainNode) : ChainNode :=
  {| amendment := a; parent_hash := parent_hash node; hash := hash node |}.

(** The reason [verify_integrity] logs for a node that fails: the hash is
    looked at first. *)
Definition failure_reason (node : ChainNode) : str :=
  if bool_decide (hash_check node) then u "parent_link_broken" else u "hash_mismatch".

(** [lst.insert(k, x)] for [0 <= k <= len(lst)] *)
Definition list_insert_at {A : Type} (k : nat) (x : A) (l : list A) : list A :=
  take k l ++ x :: drop k l.

(** Node [i] of the example ledger. *)
Definition example_node (i : nat) : ChainNode :=
  default {| amendment := example_amendment [] []; parent_hash := None; hash := [] |}
          (chain example_ledger !! i).

(** The node of the insertion test: a new amendment, linked to the first
    node of the example ledger. *)
Definition example_inserted : ChainNode :=
  let a := example_amendment (u "INSERTED CONTENT") (u "Attacker") in
  let parent := Some (hash (example_node 0)) in
  {| amendment := a; parent_hash := parent; hash := entry_digest a parent |}.

(* ====================================================================== *)
(** ** Reading a serialised string back *)
(* ====================================================================== *)

(** A Unicode scalar value: a code point that is not a surrogate.  Text
    that was decoded from UTF-8 holds nothing else. *)
Definition scalar (c : N) : Prop := c ≤ 0x10FFFF ∧ ¬ (0xD800 ≤ c ∧ c ≤ 0xDFFF).

Definition scalars (s : str) : Prop := Forall scalar s.

(** The amendments and parent hashes made of scalar values. *)
Definition scalar_amendment (a : Amendment) : Prop :=
  scalars (content a) ∧ scalars (change_type a) ∧ scalars (author a)
  ∧ scalars (summary a) ∧ scalars (timestamp a).

Definition scalar_parent (p : option str) : Prop :=
  match p with
  | Some h => scalars h
  | None => True
  end.

(** The characters of a string between its quotes, then the closing quote
    and what follows it. *)
Definition json_body (s rest : str) : str :=
  (flat_map escape_char s ++ [dquote]) ++ rest.

Definition unhexdigit (c : N) : option N :=
  if (0x30 <=? c) && (c <=? 0x39) then Some (c - 0x30)
  else if (0x61 <=? c) && (c <=? 0x66) then Some (c - 0x57)
  else None.

Definition unhex4 (s : str) : option (N * str) :=
  match s with
  | a :: b :: c :: d :: rest =>
    match unhexdigit a, unhexdigit b, unhexdigit c, unhexdigit d with
    | Some a', Some b', Some c', Some d' =>
      Some (a' * 4096 + b' * 256 + c' * 16 + d', rest)
    | _, _, _, _ => None
    end
  | _ => None
  end.

(** The reader of one escaped character, as a JSON parser does it: [None]
    at the closing quote or on text that no escape produces. *)
Definition unescape (s : str) : option (N * str) :=
  match s with
  | [] => None
  | c :: r =>
    if c =? dquote then None
    else if negb (c =? backslash) then Some (c, r)
    else match r with
    | [] => None
    | d :: r' =>
      if d =? backslash then Some (backslash, r')
      else if d =? dquote then Some (dquote, r')
      else if d =? 0x62 then Some (0x08, r')
      else if d =? 0x66 then Some (0x0C, r')
      else if d =? 0x6E then Some (0x0A, r')
      else if d =? 0x72 then Some (0x0D, r')
      else if d =? 0x74 then Some (0x09, r')
      else if negb (d =? 0x75) then None
      else match unhex4 r' with
      | None => None
      | Some (n, r'') =>
        if negb ((0xD800 <=? n) && (n <=? 0xDBFF)) then Some (n, r'')
        else match r'' with
        | b :: v :: r3 =>
          if (b =? backslash) && (v =? 0x75) then
            match unhex4 r3 with
            | Some (m, r4) => Some (0x10000 + (n - 0xD800) * 1024 + (m - 0xDC00), r4)
            | None => None
            end
          else None
        | _ => None
        end
      end
    end
  end.

(** The serialised node written out, with its six strings in the order
    of the sorted keys. *)
Definition parent_tail (p : option str) : str :=
  match p with
  | Some h => dquote :: json_body h (u "}")
  | None => u "null}"
  end.

Definition hash_text (a : Amendment) (p : option str) : str :=
  q "{'amendment': {'author': '" ++ json_body (author a)
  (q ", 'change_type': '" ++ json_body (change_type a)
  (q ", 'content': '" ++ json_body (content a)
  (q ", 'summary': '" ++ json_body (summary a)
  (q ", 'timestamp': '" ++ json_body (timestamp a)
  (q "}, 'parent_hash': " ++ parent_tail p))))).

(** The two halves of the escape of a character above U+FFFF. *)
Definition high_surrogate (c : N) : N :=
  N.lor 0xD800 (N.land (N.shiftr (c - 0x10000) 10) 0x3FF).

Definition low_surrogate (c : N) : N :=
  N.lor 0xDC00 (N.land (c - 0x10000) 0x3FF).

#[global] Instance scalar_dec (c : N) : Decision (scalar c).
Proof. unfold scalar. apply _. Defined.

#[global] Instance scalar_amendment_dec (a : Amendment) : Decision (scalar_amendment a).
Proof. unfold scalar_amendment, scalars. apply _. Defined.

#[global] Instance scalar_parent_dec (p : option str) : Decision (scalar_parent p).
Proof. destruct p; unfold scalar_parent, scalars; apply _. Defined.

(** [amendment.content = text] *)
Definition set_content (text : str) (a : Amendment) : Amendment :=
  {| content := text; change_type := change_type a; author := author a;
     timestamp := timestamp a; summary := summary a |}.

(** A ledger with one entry whose content ends in U+1F600. *)
Definition astral_ledger : HashChain :=
  (add_all [example_amendment (u "Art. 1 " ++ [0x1F600]) (u "Alice")] fresh_ledger).2.

(* ====================================================================== *)
(** ** class RateLimiter *)
(* ====================================================================== *)

Section RateLimiter.

(** [time.time()] gives seconds as a floating-point number.  The limiter
    only subtracts and compares them: [within now t w] stands for
    [now - t < w]. *)
Variable time : Type.
Variable within : time → time → Z → bool.

Record RateLimiter : Type := {
  max_requests : Z;
  window_sec : Z;
  requests : gmap str (list time)
}.

Definition RateLimiter_init (max_requests window_sec : Z) : RateLimiter :=
  {| max_requests := max_requests; window_sec := window_sec; requests := ∅ |}.

(** [self.is_allowed(client_id)], [now] being the reading of the clock. *)
Definition is_allowed (self : RateLimiter) (now : time) (client_id : str)
    : bool * RateLimiter :=
  let requests1 :=
    match requests self !! client_id with
    | Some _ => requests self
    | None => <[client_id := []]> (requests self)
    end in
  let kept :=
    List.filter (fun t => within now t (window_sec self))
                (default [] (requests1 !! client_id)) in
  let requests2 := <[client_id := kept]> requests1 in
  if bool_decide (max_requests self ≤ Z.of_nat (length kept))%Z
  then (false, {| max_requests := max_requests self; window_sec := window_sec self;
                  requests := requests2 |})
  else (true, {| max_requests := max_requests self; window_sec := window_sec self;
                 requests := <[client_id := kept ++ [now]]> requests2 |}).

(** Calls of [is_allowed] one after the other, each with its client and
    the reading of the clock, and the answers they got. *)
Fixpoint serve (calls : list (str * time)) (self : RateLimiter)
    : list bool * RateLimiter :=
  match calls with
  | [] => ([], self)
  | (client_id, now) :: rest =>
    let (answer, self) := is_allowed self now client_id in
    let (answers, self) := serve rest self in
    (answer :: answers, self)
  end.

(** The calls of one client, and the answers given to it. *)
Definition calls_of (client_id : str) (calls : list (str * time)) : list (str * time) :=
  List.filter (fun call => bool_decide (call.1 = client_id)) calls.

Definition answers_to (client_id : str) (calls : list (str * time))
    (answers : list bool) : list bool :=
  map snd (List.filter (fun x => bool_decide (x.1.1 = client_id)) (zip calls answers)).

(** The remembered requests of a client. *)
Definition remembered (self : RateLimiter) (client_id : str) : list time :=
  default [] (requests self !! client_id).

End RateLimiter.

Arguments max_requests {time} _.
Arguments window_sec {time} _.
Arguments requests {time} _.
Arguments RateLimiter_init {time} _ _.
Arguments is_allowed {time} within self now client_id.
Arguments serve {time} within calls self.
Arguments calls_of {time} client_id calls.
Arguments answers_to {time} client_id calls answers.
Arguments remembered {time} self client_id.

(** A clock of whole seconds for the examples. *)
Definition within_seconds (now t : Z) (window : Z) : bool := bool_decide (now - t < window)%Z.

Definition example_calls : list (str * Z) :=
  [ (u "client1", 0%Z); (u "client1", 1%Z); (u "client2", 1%Z);
    (u "client1", 2%Z); (u "client1", 3%Z) ].

(* ====================================================================== *)
(** ** class DiffEngine *)
(* ====================================================================== *)

(** [s.split(sep)] for a separator of one character: the pieces between
    the separators, one more than there are separators. *)
Fixpoint str_split (sep : N) (s : str) : list str :=
  match s with
  | [] => [[]]
  | c :: rest =>
    if c =? sep then [] :: str_split sep rest
    else match str_split sep rest with
         | piece :: pieces => (c :: piece) :: pieces
         | [] => [[c]]
         end
  end.

Definition newline : N := 0x0A.

(** The dictionary that [compare_amendments] returns.  The two lists are
    made from sets, in the order in which Python happens to enumerate
    them: they are kept as sets here. *)
Record comparison : Type := {
  added_lines : gset str;
  removed_lines : gset str;
  total_changes : nat
}.

Definition compare_amendments (old_content new_content : str) : comparison :=
  let old_sections : gset str := list_to_set (str_split newline old_content) in
  let new_sections : gset str := list_to_set (str_split newline new_content) in
  {| added_lines := new_sections ∖ old_sections;
     removed_lines := old_sections ∖ new_sections;
     total_changes := size (new_sections ∖ old_sections)
                      + size (old_sections ∖ new_sections) |}.

(* ====================================================================== *)
(** ** api.py and app.py: the endpoints *)
(* ====================================================================== *)

(** [d[key]].  [None] stands for the exception of a failing lookup. *)
Fixpoint lookup_item (items : list (str * pyval)) (key : str) : option pyval :=
  match items with
  | [] => None
  | (k, v) :: rest => if str_eqb k key then Some v else lookup_item rest key
  end.

Definition getitem (d : pyval) (key : str) : option pyval :=
  match d with
  | VDict items => lookup_item items key
  | _ => None
  end.

(** [v == s] for a string [s], [v == z] for an integer [z]. *)
Definition equals_str (v : pyval) (s : str) : bool :=
  match v with
  | VStr t => str_eqb t s
  | _ => false
  end.

Definition equals_int (v : pyval) (z : Z) : bool :=
  match v with
  | VInt n => bool_decide (n = z)
  | _ => false
  end.

(** [l[start:stop]], for bounds of either sign. *)
Definition slice_index (n i : Z) : Z :=
  if (i <? 0)%Z then Z.max (i + n) 0 else Z.min i n.

Definition slice {A : Type} (l : list A) (start stop : Z) : list A :=
  let n := Z.of_nat (length l) in
  let lo := slice_index n start in
  let hi := slice_index n stop in
  take (Z.to_nat (hi - lo)) (drop (Z.to_nat lo) l).

(** What a call of an endpoint does: it returns a body, it raises an
    [HTTPException], or it fails with another exception ([Raises] for
    the ledger's own, [Crash] for a lookup or a validation that fails). *)
Inductive outcome (A : Type) : Type :=
| Return (body : A)
| HTTPException (status_code : Z) (detail : str)
| Raises (e : exn)
| Crash.
Arguments Return {A} body.
Arguments HTTPException {A} status_code detail.
Arguments Raises {A} e.
Arguments Crash {A}.

(** [sum(1 for e in history if e['amendment']['change_type'] == t)] *)
Fixpoint count_type (t : str) (history : list pyval) : option Z :=
  match history with
  | [] => Some 0%Z
  | e :: rest =>
    a ← getitem e (u "amendment");
    c ← getitem a (u "change_type");
    n ← count_type t rest;
    Some (if equals_str c t then (1 + n)%Z else n)
  end.

Module api.

(** The two bodies of [GET /amendments]. *)
Inductive listing : Type :=
| error_body (error : str)
| amendments_body (amendments : list pyval) (total : Z).

Definition list_amendments (current_chain : option HashChain) (skip limit : Z)
    : outcome listing :=
  match current_chain with
  | None => Return (error_body (u "No chain loaded"))
  | Some chain =>
    match (get_history chain).1 with
    | Ok history =>
      Return (amendments_body (slice history skip (skip + limit))
                              (Z.of_nat (length history)))
    | Raise e => Raises e
    end
  end.

Record statistics_body : Type := {
  total : Z;
  substantive : Z;
  editorial : Z
}.

Definition statistics (current_chain : option HashChain) : outcome statistics_body :=
  match current_chain with
  | None => HTTPException 404 (u "No chain loaded")
  | Some chain =>
    match (get_history chain).1 with
    | Ok history =>
      match count_type (u "substantive") history, count_type (u "editorial") history with
      | Some s, Some e =>
        Return {| total := Z.of_nat (length history); substantive := s; editorial := e |}
      | _, _ => Crash
      end
    | Raise e => Raises e
    end
  end.

End api.

Module app.

Record AmendmentResponse : Type := {
  version : Z;
  hash : str;
  parent_hash : option str;
  content : str;
  change_type : str;
  author : str;
  summary : str;
  timestamp : str
}.

(** The fields as pydantic takes them: [int], [str], [Optional[str]]. *)
Definition as_int (v : pyval) : option Z :=
  match v with VInt z => Some z | _ => None end.

Definition as_str (v : pyval) : option str :=
  match v with VStr s => Some s | _ => None end.

Definition as_optional_str (v : pyval) : option (option str) :=
  match v with VNone => Some None | VStr s => Some (Some s) | _ => None end.

(** [AmendmentResponse(version=entry['version'], ...)] *)
Definition AmendmentResponse_of (entry : pyval) : option AmendmentResponse :=
  v ← getitem entry (u "version");
  h ← getitem entry (u "hash");
  p ← getitem entry (u "parent_hash");
  a ← getitem entry (u "amendment");
  c ← getitem a (u "content");
  t ← getitem a (u "change_type");
  w ← getitem a (u "author");
  s ← getitem a (u "summary");
  ts ← getitem a (u "timestamp");
  v ← as_int v; h ← as_str h; p ← as_optional_str p; c ← as_str c;
  t ← as_str t; w ← as_str w; s ← as_str s; ts ← as_str ts;
  Some {| version := v; hash := h; parent_hash := p; content := c;
          change_type := t; author := w; summary := s; timestamp := ts |}.

(** The loop of [get_amendment] over the history. *)
Fixpoint find_version (version : Z) (history : list pyval) : outcome AmendmentResponse :=
  match history with
  | [] => HTTPException 404 (u "Amendment " ++ str_of_int version ++ u " not found")
  | entry :: rest =>
    match getitem entry (u "version") with
    | Some v =>
      if equals_int v version then
        match AmendmentResponse_of entry with
        | Some response => Return response
        | None => Crash
        end
      else find_version version rest
    | None => Crash
    end
  end.

Definition get_amendment (current_chain : option HashChain) (version : Z)
    : outcome AmendmentResponse :=
  match current_chain with
  | None => HTTPException 404 (u "No legal act loaded")
  | Some chain =>
    match (get_history chain).1 with
    | Ok history => find_version version history
    | Raise e => Raises e
    end
  end.

(** The dictionary [authors], in the order in which its keys came in. *)
Fixpoint dict_get (d : list (str * Z)) (key : str) (otherwise : Z) : Z :=
  match d with
  | [] => otherwise
  | (k, v) :: rest => if str_eqb k key then v else dict_get rest key otherwise
  end.

Fixpoint dict_set (d : list (str * Z)) (key : str) (value : Z) : list (str * Z) :=
  match d with
  | [] => [(key, value)]
  | (k, v) :: rest =>
    if str_eqb k key then (k, value) :: rest else (k, v) :: dict_set rest key value
  end.

(** [for entry in history: authors[author] = authors.get(author, 0) + 1] *)
Fixpoint count_authors (authors : list (str * Z)) (history : list pyval)
    : option (list (str * Z)) :=
  match history with
  | [] => Some authors
  | entry :: rest =>
    a ← getitem entry (u "amendment");
    w ← getitem a (u "author");
    name ← as_str w;
    count_authors (dict_set authors name (dict_get authors name 0 + 1)%Z) rest
  end.

Record statistics_body : Type := {
  total_amendments : Z;
  by_type : Z * Z;
  by_author : list (str * Z)
}.

Definition get_statistics (current_chain : option HashChain) : outcome statistics_body :=
  match current_chain with
  | None => HTTPException 404 (u "No legal act loaded")
  | Some chain =>
    match (get_history chain).1 with
    | Ok history =>
      match count_type (u "substantive") history, count_type (u "editorial") history,
            count_authors [] history with
      | Some s, Some e, Some authors =>
        Return {| total_amendments := Z.of_nat (length history);
                  by_type := (s, e);
                  by_author := authors |}
      | _, _, _ => Crash
      end
    | Raise e => Raises e
    end
  end.

End app.

(** The nodes of a chain with a given author, a given type. *)
Definition written_by (name : str) (nodes : list ChainNode) : list ChainNode :=
  List.filter (fun node => str_eqb (author (amendment node)) name) nodes.

Definition of_type (t : str) (nodes : list ChainNode) : list ChainNode :=
  List.filter (fun node => str_eqb (change_type (amendment node)) t) nodes.

(** The response for the node at index [i]. *)
Definition response_of_node (i : nat) (node : ChainNode) : app.AmendmentResponse :=
  {| app.version := Z.of_nat i + 1;
     app.hash := hash node;
     app.parent_hash := parent_hash node;
     app.content := content (amendment node);
     app.change_type := change_type (amendment node);
     app.author := author (amendment node);
     app.summary := summary (amendment node);
     app.timestamp := timestamp (amendment node) |}.

(** The rows of a page, and the sum of the values of a dictionary. *)
Definition page_rows (reply : outcome api.listing) : list pyval :=
  match reply with
  | Return (api.amendments_body rows _) => rows
  | _ => []
  end.

Definition sum_values (d : list (str * Z)) : Z := foldr Z.add 0%Z (map snd d).

Definition not_found (version : Z) : outcome app.AmendmentResponse :=
  HTTPException 404 (u "Amendment " ++ str_of_int version ++ u " not found").

(* ====================================================================== *)
(** ** data_ingestion.py: class DataIngestionPipeline *)
(* ====================================================================== *)






(* ====================================================================== *)
(** ** crypto_utils.py: the second [HashChain] *)
(* ====================================================================== *)

Module crypto_chain.

(** The loop of [verify_integrity] from index [i] on; beside the answer,
    the line that is printed. *)
Fixpoint verify_from (chain : list crypto_utils.ChainNode) (i : nat)
    (nodes : list crypto_utils.ChainNode) : result (bool * str) :=
  match nodes with
  | [] => Ok (true, u "✓ Chain integrity verified!")
  | node :: rest =>
    ok ← crypto_utils.verify node;
    if negb ok then
      Ok (false, u "✗ Node " ++ str_of_int (Z.of_nat i) ++ u " hash mismatch!")
    else
      broken ←
        (if bool_decide (0 < i)%nat then
           prev ← item chain (i - 1);
           mret (bool_decide (crypto_utils.parent_hash node
                              ≠ Some (crypto_utils.hash prev)))
         else mret false);
      if (broken : bool) then
        Ok (false, u "✗ Node " ++ str_of_int (Z.of_nat i) ++ u " parent link broken!")
      else verify_from chain (S i) rest
  end.

(** No limit on the size here, and no audit log. *)
Definition verify_integrity (chain : list crypto_utils.ChainNode) : result (bool * str) :=
  verify_from chain 0 chain.

End crypto_chain.



(* ====================================================================== *)
(** * Properties *)
(* ====================================================================== *)

(** ** The model on concrete inputs *)

Example u_ascii : u "No content" = [78; 111; 32; 99; 111; 110; 116; 101; 110; 116].
Proof. reflexivity. Qed.

Example u_two_and_three_bytes : u "tÄ…" = [0x74; 0xC4; 0x2026].
Proof. reflexivity. Qed.

Example strip_ex : strip (u "  a b	 ") = u "a b".
Proof. reflexivity. Qed.

Example replace_ex : replace (u "aa") (u "b") (u "aaaxaa") = u "baxb".
Proof. reflexivity. Qed.

Example replace_empty_ex : replace [] (u "-") (u "ab") = u "-a-b-".
Proof. reflexivity. Qed.

Example rsplit1_ex : rsplit1 0x20 (u "a b c") = [u "a b"; u "c"].
Proof. reflexivity. Qed.

Example rsplit1_none_ex : rsplit1 0x20 (u "abc") = [u "abc"].
Proof. reflexivity. Qed.

Example capitalize_ex : capitalize (u "tÄ… ustawÄ…") = u "Tä… ustawä…".
Proof. reflexivity. Qed.

Example json_dumps_ex :
  json_dumps (VDict [(u "b", VNone);
                     (u "a", VDict [(u "y", VStr (u "ł\")); (u "x", VInt (-7))])])
  = q "{'a': {'x': -7, 'y': '\u0142\\'}, 'b': null}".
Proof. reflexivity. Qed.

Example escape_astral : escape_char 0x1F600 = u "\ud83d\ude00".
Proof. reflexivity. Qed.

Example encode_ex : encode (u "ał…") = Some [0x61; 0xC5; 0x82; 0xE2; 0x80; 0xA6].
Proof. reflexivity. Qed.

Example encode_surrogate : encode [0x61; 0xD800] = None.
Proof. reflexivity. Qed.

Example sha256_empty :
  SHA256.hexdigest [] = u "e3b0c44298fc1c149afbf4c8996fb92427ae41e4649b934ca495991b7852b855".
Proof. vm_compute. reflexivity. Qed.

Example sha256_abc :
  SHA256.hexdigest (u "abc")
  = u "ba7816bf8f01cfea414140de5dae2223b00361a396177a9cb410ff61f20015ad".
Proof. vm_compute. reflexivity. Qed.

Example sha256_two_blocks :
  SHA256.hexdigest (u "abcdbcdecdefdefgefghfghighijhijkijkljklmklmnlmnomnopnopq")
  = u "248d6a61d20638b8e5c026930c3e6039a33ce45964ff2167f6ecedd419db06c1".
Proof. vm_compute. reflexivity. Qed.

Example simplify_test_text :
  simplify {| api_key := None |} (u "ArtykuÅ‚ 1: Niniejszym ustawÄ… osoby powinni mieÄ‡ prawo.")
  = u "Art. 1: Tä… ustawä… osoby muszÄ… mieÄ‡ prawo.".
Proof. vm_compute. reflexivity. Qed.

Example simplify_long_text :
  simplify {| api_key := None |} (concat (repeat (u "Test ") 100))
  = concat (repeat (u "Test ") 39) ++ u "Test...".
Proof. vm_compute. reflexivity. Qed.

(** ** Blank strings *)

Lemma lstrip_nil (s : str) : lstrip s = [] ↔ whitespace_only s.
Proof.
  unfold whitespace_only. induction s as [|c s IH]; simpl.
  - split; auto.
  - destruct (isspace c) eqn:E.
    + rewrite IH. split; [intros H; constructor; assumption|].
      intros H. apply Forall_cons in H. tauto.
    + split; [discriminate|]. intros H. apply Forall_cons in H.
      destruct H as [H _]. congruence.
Qed.

Lemma lstrip_whitespace (s : str) : whitespace_only (lstrip s) ↔ whitespace_only s.
Proof.
  unfold whitespace_only. induction s as [|c s IH]; simpl; [tauto|].
  destruct (isspace c) eqn:E; [|tauto].
  rewrite IH, Forall_cons. tauto.
Qed.

Lemma strip_nil (s : str) : strip s = [] ↔ whitespace_only s.
Proof.
  unfold strip, rstrip. rewrite <- lstrip_whitespace.
  split.
  - intros H. apply (f_equal reverse) in H. rewrite reverse_involutive in H.
    change (reverse []) with (@nil N) in H. apply lstrip_nil in H.
    unfold whitespace_only in *. rewrite Forall_reverse in H. exact H.
  - intros H. unfold whitespace_only in H. rewrite <- Forall_reverse in H.
    apply lstrip_nil in H. rewrite H. reflexivity.
Qed.

Lemma blank_true (s : str) : blank s = true ↔ whitespace_only s.
Proof.
  rewrite <- strip_nil. unfold blank. destruct (strip s); simpl; split; congruence.
Qed.

Lemma blank_false (s : str) : blank s = false ↔ ¬ whitespace_only s.
Proof.
  rewrite <- blank_true. destruct (blank s); split; congruence.
Qed.

Lemma blank_nil : blank [] = true.
Proof. reflexivity. Qed.

(** ** The serialised form is ASCII, so encoding it cannot fail *)

Lemma ascii_app (a b : str) : ascii a → ascii b → ascii (a ++ b).
Proof. unfold ascii. intros. apply Forall_app. split; assumption. Qed.

Lemma ascii_cons (c : N) (s : str) : c < 0x80 → ascii s → ascii (c :: s).
Proof. unfold ascii. intros. constructor; assumption. Qed.

Lemma nibble_bound (k n : N) : nibble k n < 16.
Proof.
  unfold nibble. change 0xF with (N.ones 4). rewrite N.land_ones.
  apply N.mod_lt. discriminate.
Qed.

Lemma hexdigit_ascii (n : N) : n < 16 → hexdigit n < 0x80.
Proof. unfold hexdigit. intros H. destruct (n <? 10); lia. Qed.

Lemma hex4_ascii (n : N) : ascii (hex4 n).
Proof.
  unfold hex4, ascii. apply Forall_fmap, Forall_forall. intros k _. simpl.
  apply hexdigit_ascii, nibble_bound.
Qed.

Lemma literal_ascii (s : str) : forallb (fun c => c <? 0x80) s = true → ascii s.
Proof.
  unfold ascii. rewrite forallb_forall, Forall_forall. intros H c Hc.
  apply N.ltb_lt, H, list_elem_of_In, Hc.
Qed.

Lemma escape_char_ascii (c : N) : ascii (escape_char c).
Proof.
  unfold escape_char.
  repeat match goal with
  | |- ascii (if ?b then _ else _) => destruct b eqn:?
  end;
  try (apply literal_ascii; reflexivity).
  - apply andb_prop in Heqb6 as [_ H]. apply N.leb_le in H.
    apply ascii_cons; [lia|constructor].
  - apply ascii_cons; [reflexivity|]. apply ascii_app; [apply literal_ascii; reflexivity|].
    apply hex4_ascii.
  - cbv zeta. apply ascii_cons; [reflexivity|].
    apply ascii_app; [apply literal_ascii; reflexivity|].
    apply ascii_app; [apply hex4_ascii|].
    apply ascii_cons; [reflexivity|].
    apply ascii_app; [apply literal_ascii; reflexivity|apply hex4_ascii].
Qed.

Lemma json_string_ascii (s : str) : ascii (json_string s).
Proof.
  unfold json_string. apply ascii_cons; [reflexivity|].
  apply ascii_app; [|apply literal_ascii; reflexivity].
  induction s as [|c s IH]; simpl; [constructor|].
  apply ascii_app; [apply escape_char_ascii|exact IH].
Qed.

Lemma digits_ascii (d : Decimal.uint) : ascii (digits d).
Proof.
  induction d; simpl; try constructor; try exact IHd; reflexivity.
Qed.

Lemma str_of_int_ascii (z : Z) : ascii (str_of_int z).
Proof.
  destruct z; unfold str_of_int.
  - apply literal_ascii; reflexivity.
  - apply digits_ascii.
  - apply ascii_app; [apply literal_ascii; reflexivity|apply digits_ascii].
Qed.

Lemma join_ascii (sep : str) (parts : list str) :
  ascii sep → Forall ascii parts → ascii (join sep parts).
Proof.
  intros Hsep. induction 1 as [|p parts Hp Hparts IH]; simpl; [constructor|].
  destruct parts as [|p' parts]; [exact Hp|].
  apply ascii_app; [exact Hp|]. apply ascii_app; [exact Hsep|exact IH].
Qed.

Lemma insert_by_key_ascii (kv : str * str) (l : list (str * str)) :
  ascii_item kv → Forall ascii_item l → Forall ascii_item (insert_by_key kv l).
Proof.
  intros Hkv. induction 1 as [|kv' l Hkv' Hl IH]; simpl.
  - constructor; [exact Hkv|constructor].
  - destruct (str_leb kv.1 kv'.1); repeat (constructor; auto).
Qed.

Lemma sort_by_key_ascii (l : list (str * str)) :
  Forall ascii_item l → Forall ascii_item (sort_by_key l).
Proof.
  unfold sort_by_key. induction 1; simpl; [constructor|].
  apply insert_by_key_ascii; assumption.
Qed.

(** Induction on values, with the hypothesis for every item of a
    dictionary. *)
Lemma pyval_nested_ind (P : pyval → Prop) :
  P VNone → (∀ z, P (VInt z)) → (∀ s, P (VStr s)) →
  (∀ items, Forall (fun kv => P kv.2) items → P (VDict items)) →
  ∀ v, P v.
Proof.
  intros HN HI HS HD. fix rec 1. intros [| z | s | items].
  - exact HN.
  - apply HI.
  - apply HS.
  - apply HD. induction items as [|[k x] items IH]; constructor.
    + apply rec.
    + exact IH.
Qed.

Lemma json_dumps_dict (items : list (str * pyval)) :
  json_dumps (VDict items)
  = u "{"
      ++ join (u ", ")
           (map (fun kv => json_string kv.1 ++ u ": " ++ kv.2)
                (sort_by_key (map (fun kv => (kv.1, json_dumps kv.2)) items)))
      ++ u "}".
Proof.
  simpl. do 5 f_equal. apply map_ext. intros [k x]. reflexivity.
Qed.

Lemma json_dumps_ascii (v : pyval) : ascii (json_dumps v).
Proof.
  induction v as [| z | s | items IH] using pyval_nested_ind;
    [simpl | simpl | simpl | rewrite json_dumps_dict].
  - apply literal_ascii; reflexivity.
  - apply str_of_int_ascii.
  - apply json_string_ascii.
  - apply ascii_app; [apply literal_ascii; reflexivity|].
    apply ascii_app; [|apply literal_ascii; reflexivity].
    apply join_ascii; [apply literal_ascii; reflexivity|].
    apply Forall_fmap, Forall_forall. intros kv Hkv. cbv beta.
    apply ascii_app; [apply json_string_ascii|].
    apply ascii_app; [apply literal_ascii; reflexivity|].
    revert kv Hkv. apply Forall_forall, sort_by_key_ascii.
    apply Forall_fmap, Forall_forall. intros kx Hkx.
    rewrite Forall_forall in IH. exact (IH _ Hkx).
Qed.

Lemma encode_ascii (s : str) : ascii s → encode s = Some s.
Proof.
  induction 1 as [|c s Hc Hs IH]; simpl; [reflexivity|].
  rewrite IH. unfold utf8_encode_char.
  apply N.ltb_lt in Hc. rewrite Hc. reflexivity.
Qed.

Lemma encode_json_dumps (v : pyval) : encode (json_dumps v) = Some (json_dumps v).
Proof. apply encode_ascii, json_dumps_ascii. Qed.

(** ** The digest *)

Lemma hexdigit_is_hexdigit (n : N) : n < 16 → is_hexdigit (hexdigit n) = true.
Proof.
  unfold hexdigit, is_hexdigit. intros H.
  destruct (N.ltb_spec n 10).
  - apply orb_true_iff. left. apply andb_true_iff. split; apply N.leb_le; lia.
  - apply orb_true_iff. right. apply andb_true_iff. split; apply N.leb_le; lia.
Qed.

Lemma hex8_length (w : N) : length (SHA256.hex8 w) = 8%nat.
Proof. reflexivity. Qed.

Lemma hex8_hexdigits (w : N) : Forall (fun c => is_hexdigit c = true) (SHA256.hex8 w).
Proof.
  unfold SHA256.hex8. apply Forall_fmap, Forall_forall. intros k _.
  apply hexdigit_is_hexdigit, nibble_bound.
Qed.

Lemma hexdigest_length (msg : list N) : length (SHA256.hexdigest msg) = 64%nat.
Proof.
  unfold SHA256.hexdigest. generalize (SHA256.digest msg). intros s.
  unfold SHA256.words_of_state. reflexivity.
Qed.

Lemma hexdigest_hexdigits (msg : list N) :
  Forall (fun c => is_hexdigit c = true) (SHA256.hexdigest msg).
Proof.
  unfold SHA256.hexdigest. generalize (SHA256.digest msg). intros s.
  unfold SHA256.words_of_state.
  repeat (first [apply Forall_nil_2 | apply Forall_app; split; [apply hex8_hexdigits|]]).
Qed.

Lemma calculate_hash_total (a : Amendment) (parent : option str) :
  _calculate_hash a parent = Ok (entry_digest a parent).
Proof.
  unfold _calculate_hash, entry_digest. cbv zeta.
  rewrite encode_json_dumps. reflexivity.
Qed.

Lemma ChainNode_init_total (a : Amendment) (parent : option str) :
  ChainNode_init a parent
  = Ok {| amendment := a; parent_hash := parent; hash := entry_digest a parent |}.
Proof. unfold ChainNode_init. rewrite calculate_hash_total. reflexivity. Qed.

Lemma verify_total (node : ChainNode) :
  verify node
  = Ok (bool_decide (hash node = entry_digest (amendment node) (parent_hash node))).
Proof. unfold verify. rewrite calculate_hash_total. reflexivity. Qed.

Lemma hash_check_digest (node : ChainNode) :
  hash_check node ↔ hash node = entry_digest (amendment node) (parent_hash node).
Proof.
  unfold hash_check. rewrite calculate_hash_total.
  split; [intros [= ->]; reflexivity | intros ->; reflexivity].
Qed.

(** C3.  The hash of an entry is a function of the values of the record's
    five fields and of the parent hash: the computation always returns,
    two records with equal field values and equal parents get the same
    digest, and a node as its constructor leaves it passes [verify]. *)
Theorem entry_hash_deterministic (a : Amendment) (parent : option str) :
  ∃ d : str,
    _calculate_hash a parent = Ok d
    ∧ (∀ (a' : Amendment) (parent' : option str),
         content a' = content a → change_type a' = change_type a →
         author a' = author a → summary a' = summary a →
         timestamp a' = timestamp a → parent' = parent →
         _calculate_hash a' parent' = Ok d)
    ∧ ∃ node : ChainNode,
        ChainNode_init a parent = Ok node
        ∧ amendment node = a ∧ parent_hash node = parent ∧ hash node = d
        ∧ verify node = Ok true.
Proof.
  exists (entry_digest a parent). split; [apply calculate_hash_total|]. split.
  - intros [c' t' w' ts' s'] parent'. destruct a as [c t w ts s]. simpl.
    intros -> -> -> -> -> ->. apply calculate_hash_total.
  - eexists. split; [apply ChainNode_init_total|].
    repeat split. rewrite verify_total. f_equal.
    apply bool_decide_eq_true_2. reflexivity.
Qed.

(** C10.  The [_calculate_hash] of hash_chain.py and the one of
    crypto_utils.py return the same digest on amendments with equal field
    values and equal parent hashes, a string of 64 hexadecimal digits. *)
Theorem calculate_hash_equivalent
    (a : Amendment) (b : crypto_utils.Amendment) (parent parent' : option str) :
  content a = crypto_utils.content b →
  change_type a = crypto_utils.change_type b →
  author a = crypto_utils.author b →
  summary a = crypto_utils.summary b →
  timestamp a = crypto_utils.timestamp b →
  parent = parent' →
  ∃ d : str,
    _calculate_hash a parent = Ok d
    ∧ crypto_utils._calculate_hash b parent' = Ok d
    ∧ length d = 64%nat
    ∧ Forall (fun c => is_hexdigit c = true) d.
Proof.
  destruct a as [c t w ts s], b as [c' t' w' ts' s']. simpl.
  intros -> -> -> -> -> ->.
  exists (entry_digest (Build_Amendment c' t' w' ts' s') parent').
  split; [apply calculate_hash_total|]. split.
  - unfold crypto_utils._calculate_hash. cbv zeta.
    rewrite encode_json_dumps. reflexivity.
  - split; [apply hexdigest_length | apply hexdigest_hexdigits].
Qed.

(** ** Running the methods *)

Lemma add_amendment_run (a : Amendment) (self : HashChain) :
  let parent := match last (chain self) with Some tail => Some (hash tail) | None => None end in
  let node := {| amendment := a; parent_hash := parent; hash := entry_digest a parent |} in
  add_amendment a self
  = (Ok (hash node),
     {| act_id := act_id self; act_title := act_title self;
        chain := chain self ++ [node]; llm := llm self;
        audit := audit self ++
          [{| event := u "amendment_added";
              details := [ (u "act", VStr (act_id self));
                           (u "hash", VStr (take 16 (hash node)));
                           (u "author", VStr (author a)) ] |}] |}).
Proof.
  intros parent node. unfold add_amendment. run_method.
  rewrite ChainNode_init_total. reflexivity.
Qed.

Lemma verify_from_nil (i : nat) (self : HashChain) :
  verify_from i [] self = (Ok true, logged self (verified_record self)).
Proof. reflexivity. Qed.

Lemma verify_from_cons (i : nat) (node : ChainNode) (rest : list ChainNode)
    (self : HashChain) :
  verify_from i (node :: rest) self
  = if bool_decide (hash_check node) then
      match (if bool_decide (0 < i)%nat then
               prev ← item (chain self) (i - 1);
               mret (bool_decide (parent_hash node ≠ Some (hash prev)))
             else Ok false) with
      | Ok true => (Ok false, logged self (tampering_record self i (u "parent_link_broken")))
      | Ok false => verify_from (S i) rest self
      | Raise e => (Raise e, self)
      end
    else (Ok false, logged self (tampering_record self i (u "hash_mismatch"))).
Proof.
  cbn [verify_from]. run_method. rewrite verify_total.
  unfold str_eqb.
  rewrite (bool_decide_ext _ _ (hash_check_digest node)).
  destruct (bool_decide _); [|reflexivity].
  cbn [negb]. destruct (bool_decide (0 < i)%nat); [|reflexivity].
  destruct (item (chain self) (i - 1)) as [prev|e]; [|reflexivity].
  destruct (bool_decide (parent_hash node ≠ Some (hash prev))); reflexivity.
Qed.

Lemma link_step (c : list ChainNode) (i : nat) (node : ChainNode) :
  (match (if bool_decide (0 < i)%nat then
            prev ← item c (i - 1);
            mret (bool_decide (parent_hash node ≠ Some (hash prev)))
          else Ok false) with
   | Ok b => b = false ↔ link_check c i node
   | Raise _ => (length c < i)%nat
   end).
Proof.
  unfold link_check, item. case_bool_decide as Hi.
  - destruct (c !! (i - 1)%nat) as [prev|] eqn:Hp; cbn.
    + case_bool_decide as Hl; split.
      * discriminate.
      * intros H. exfalso. apply Hl. eauto.
      * intros _ prev' _ [= <-].
        destruct (decide (parent_hash node = Some (hash prev))); tauto.
      * reflexivity.
    + apply lookup_ge_None in Hp. lia.
  - split; [|reflexivity]. intros _ prev Hlt. lia.
Qed.

Lemma verify_from_run (nodes pre : list ChainNode) (self : HashChain) :
  chain self = pre ++ nodes →
  (verify_from (length pre) nodes self = (Ok true, logged self (verified_record self))
   ∧ ∀ k node, nodes !! k = Some node → passes (chain self) (length pre + k) node)
  ∨ ∃ (k : nat) (node : ChainNode) (reason : str),
      nodes !! k = Some node
      ∧ (∀ j m, (j < k)%nat → nodes !! j = Some m → passes (chain self) (length pre + j) m)
      ∧ verify_from (length pre) nodes self
        = (Ok false, logged self (tampering_record self (length pre + k) reason))
      ∧ ((¬ hash_check node ∧ reason = u "hash_mismatch")
         ∨ (hash_check node ∧ ¬ link_check (chain self) (length pre + k) node
            ∧ reason = u "parent_link_broken")).
Proof.
  revert pre. induction nodes as [|node rest IH]; intros pre Hc.
  - left. split; [apply verify_from_nil|]. intros k node Hk.
    rewrite lookup_nil in Hk. discriminate.
  - rewrite verify_from_cons. case_bool_decide as Hh.
    + pose proof (link_step (chain self) (length pre) node) as Hl.
      destruct (if bool_decide (0 < length pre)%nat then _ else _) as [[|]|e].
      * right. exists 0%nat, node, (u "parent_link_broken").
        rewrite Nat.add_0_r. split; [reflexivity|]. split; [intros j m Hj; lia|].
        split; [reflexivity|]. right. split; [exact Hh|]. split; [|reflexivity].
        intros H. apply Hl in H. discriminate.
      * assert (Hlink : link_check (chain self) (length pre) node) by (apply Hl; reflexivity).
        specialize (IH (pre ++ [node])).
        rewrite <- app_assoc, length_app in IH. cbn [length app] in IH.
        rewrite Nat.add_1_r in IH. specialize (IH Hc).
        destruct IH as [[Hrun Hall] | (k & n & reason & Hk & Hbefore & Hrun & Hwhy)].
        -- left. split; [exact Hrun|]. intros [|k] n Hk.
           ++ injection Hk as <-. rewrite Nat.add_0_r. split; assumption.
           ++ rewrite Nat.add_succ_r. apply (Hall k n Hk).
        -- right. exists (S k), n, reason. rewrite Nat.add_succ_r.
           split; [exact Hk|]. split; [|split; assumption].
           intros [|j] m Hj Hm.
           ++ injection Hm as <-. rewrite Nat.add_0_r. split; assumption.
           ++ rewrite Nat.add_succ_r. apply (Hbefore j m); [lia|exact Hm].
      * exfalso. rewrite Hc, length_app in Hl. lia.
    + right. exists 0%nat, node, (u "hash_mismatch").
      rewrite Nat.add_0_r. split; [reflexivity|]. split; [intros j m Hj; lia|].
      split; [reflexivity|]. left. split; [exact Hh|reflexivity].
Qed.

Lemma verify_integrity_small (self : HashChain) :
  (Z.of_nat (length (chain self)) ≤ Config.MAX_CHAIN_SIZE)%Z →
  verify_integrity Config_settings self = verify_from 0 (chain self) self.
Proof.
  intros H. unfold verify_integrity, Config_MAX_CHAIN_SIZE. run_method.
  rewrite bool_decide_eq_false_2 by lia. reflexivity.
Qed.

Lemma verify_integrity_large (self : HashChain) :
  (Config.MAX_CHAIN_SIZE < Z.of_nat (length (chain self)))%Z →
  verify_integrity Config_settings self = (Ok false, logged self (too_large_record self)).
Proof.
  intros H. unfold verify_integrity, Config_MAX_CHAIN_SIZE. run_method.
  rewrite bool_decide_eq_true_2 by lia. reflexivity.
Qed.

(** In the imported module the attribute is missing: the call raises
    before it looks at the chain, and nothing is logged. *)
Lemma verify_integrity_imported (self : HashChain) :
  verify_integrity Config_loader self = (Raise AttributeError, self).
Proof. reflexivity. Qed.

Lemma verify_integrity_returns (cls : Config_binding) (self : HashChain) (b : bool) :
  (verify_integrity cls self).1 = Ok b → cls = Config_settings.
Proof.
  destruct cls; [reflexivity|]. rewrite verify_integrity_imported. discriminate.
Qed.

Lemma link_check_succ (c : list ChainNode) :
  (∀ i node, c !! i = Some node → link_check c i node)
  ↔ (∀ i node prev, c !! S i = Some node → c !! i = Some prev →
       parent_hash node = Some (hash prev)).
Proof.
  unfold link_check. split.
  - intros H i node prev Hn Hp. apply (H (S i) node Hn prev); [lia|].
    rewrite Nat.sub_1_r. exact Hp.
  - intros H [|i] node Hn prev Hi Hp; [lia|].
    rewrite Nat.sub_1_r in Hp. exact (H i node prev Hn Hp).
Qed.

(** With [Config] bound to the settings class, as while the file runs as
    a script: within the size limit, [verify_integrity] returns (it never
    raises); it returns [True] exactly when every node's stored hash is the
    digest recomputed from its amendment and parent hash and every node
    after the first names the stored hash of the node before it; and when
    it returns [False] it has stopped at the first node failing one of the
    two checks, which the audit log names with the check that failed. *)
Theorem verify_integrity_correct (self : HashChain) :
  (Z.of_nat (length (chain self)) ≤ Config.MAX_CHAIN_SIZE)%Z →
  ∃ b : bool,
    (verify_integrity Config_settings self).1 = Ok b
    ∧ (b = true ↔
         (∀ i node, chain self !! i = Some node → hash_check node)
         ∧ (∀ i node prev,
              chain self !! S i = Some node → chain self !! i = Some prev →
              parent_hash node = Some (hash prev)))
    ∧ (b = false →
         ∃ (i : nat) (node : ChainNode) (reason : str),
           chain self !! i = Some node
           ∧ (∀ j m, (j < i)%nat → chain self !! j = Some m →
                hash_check m ∧ link_check (chain self) j m)
           ∧ (verify_integrity Config_settings self).2
             = logged self (tampering_record self i reason)
           ∧ ((¬ hash_check node ∧ reason = u "hash_mismatch")
              ∨ (hash_check node ∧ ¬ link_check (chain self) i node
                 ∧ reason = u "parent_link_broken"))).
Proof.
  intros Hsize. rewrite (verify_integrity_small self Hsize).
  destruct (verify_from_run (chain self) [] self eq_refl)
    as [[Hrun Hall] | (k & node & reason & Hk & Hbefore & Hrun & Hwhy)];
    cbn [length Nat.add] in *; rewrite Hrun; cbn [fst snd].
  - exists true. split; [reflexivity|]. split; [|discriminate].
    split; [|reflexivity]. intros _. split.
    + intros i node Hi. apply (Hall i node Hi).
    + apply link_check_succ. intros i node Hi. apply (Hall i node Hi).
  - exists false. split; [reflexivity|]. split.
    + split; [discriminate|]. intros [Hhash Hlink]. exfalso.
      destruct Hwhy as [[Hno _] | (_ & Hno & _)]; apply Hno.
      * exact (Hhash k node Hk).
      * rewrite <- link_check_succ in Hlink. exact (Hlink k node Hk).
    + intros _. exists k, node, reason. repeat split; try assumption.
      * apply (Hbefore j m); assumption.
      * apply (Hbefore j m); assumption.
Qed.

(** With [Config] bound to the settings class: above the maximum chain
    size [verify_integrity] returns [False] whatever the nodes hold, and
    logs the size. *)
Theorem verify_integrity_fails_closed (self : HashChain) :
  (Config.MAX_CHAIN_SIZE < Z.of_nat (length (chain self)))%Z →
  Config.MAX_CHAIN_SIZE = 10000%Z
  ∧ (verify_integrity Config_settings self).1 = Ok false
  ∧ (verify_integrity Config_settings self).2 = logged self (too_large_record self).
Proof.
  intros H. rewrite (verify_integrity_large self H). repeat split.
Qed.

(** ** Appending *)

Lemma chained_lookup (parent : option str) (nodes : list ChainNode) :
  chained parent nodes →
  (∀ node, nodes !! 0%nat = Some node → parent_hash node = parent)
  ∧ (∀ i node prev, nodes !! S i = Some node → nodes !! i = Some prev →
       parent_hash node = Some (hash prev)).
Proof.
  revert parent. induction nodes as [|n rest IH]; intros parent H.
  - split; intros; discriminate.
  - destruct H as [Hp Hrest]. destruct (IH _ Hrest) as [H0 HS]. split.
    + intros node [= <-]. exact Hp.
    + intros [|i] node prev Hn Hprev.
      * injection Hprev as <-. apply H0. exact Hn.
      * apply (HS i node prev Hn Hprev).
Qed.

Lemma add_all_run (ams : list Amendment) (self : HashChain) :
  ∃ (nodes : list ChainNode) (self' : HashChain),
    add_all ams self = (Ok (map hash nodes), self')
    ∧ chain self' = chain self ++ nodes
    ∧ map amendment nodes = ams
    ∧ Forall hash_check nodes
    ∧ chained (tail_hash (chain self)) nodes.
Proof.
  revert self. induction ams as [|a rest IH]; intros self.
  - exists [], self. cbn. rewrite app_nil_r. repeat split. constructor.
  - cbn [add_all]. run_method. rewrite add_amendment_run. cbv zeta.
    fold (tail_hash (chain self)).
    set (node := {| amendment := a; parent_hash := tail_hash (chain self);
                    hash := entry_digest a (tail_hash (chain self)) |}).
    match goal with |- context [add_all rest ?s] => destruct (IH s) as
      (nodes & self' & Hrun & Hchain & Hams & Hhash & Hlinks) end.
    rewrite Hrun. exists (node :: nodes), self'.
    split; [reflexivity|]. split.
    { rewrite Hchain. cbn [chain]. rewrite <- app_assoc. reflexivity. }
    split; [cbn; rewrite Hams; reflexivity|]. split.
    { constructor; [|exact Hhash]. apply hash_check_digest. reflexivity. }
    cbn [chained]. split; [reflexivity|].
    cbn [chain] in Hlinks. unfold tail_hash in Hlinks at 1.
    rewrite last_snoc in Hlinks. exact Hlinks.
Qed.

Example example_amendment_built :
  Amendment_init (u "A") (u "substantive") (u "Alice") None None example_time
  = Ok (example_amendment (u "A") (u "Alice")).
Proof. vm_compute. reflexivity. Qed.

Example fresh_ledger_built :
  HashChain_init (u "ACT-1") (u "Test Act") None = Ok fresh_ledger.
Proof. vm_compute. reflexivity. Qed.


(** C2.  On a fresh ledger, a run of one or more [add_amendment] calls
    succeeds; the chain then has one node per amendment, in order; the
    first node's parent hash is the genesis sentinel, every later node's
    parent hash is the stored hash of the node before it, and each call
    returned the hash stored in the node it created. *)
Theorem appended_chain_linked (id title : str) (g : option LLMSummaryGenerator)
    (self : HashChain) (ams : list Amendment) :
  HashChain_init id title g = Ok self →
  ams ≠ [] →
  ∃ (hashes : list str) (self' : HashChain),
    add_all ams self = (Ok hashes, self')
    ∧ length (chain self') = length ams
    ∧ (∀ i a, ams !! i = Some a →
         ∃ node, chain self' !! i = Some node ∧ amendment node = a
                 ∧ hashes !! i = Some (hash node))
    ∧ (∃ first, chain self' !! 0%nat = Some first ∧ parent_hash first = genesis)
    ∧ (∀ i node prev,
         chain self' !! S i = Some node → chain self' !! i = Some prev →
         parent_hash node = Some (hash prev)).
Proof.
  intros Hinit Hne.
  assert (Hempty : chain self = []).
  { unfold HashChain_init in Hinit.
    destruct (blank id); [discriminate|]. destruct (blank title); [discriminate|].
    injection Hinit as <-. reflexivity. }
  destruct (add_all_run ams self) as (nodes & self' & Hrun & Hchain & Hams & _ & Hlinks).
  rewrite Hempty in Hchain, Hlinks. cbn [app] in Hchain.
  change (tail_hash []) with genesis in Hlinks.
  destruct (chained_lookup _ _ Hlinks) as [Hfirst Hnext].
  exists (map hash nodes), self'. rewrite Hchain.
  split; [exact Hrun|]. split; [rewrite <- Hams, length_map; reflexivity|]. split.
  { intros i a Ha. rewrite <- Hams, list_lookup_fmap in Ha.
    destruct (nodes !! i) as [node|] eqn:Hn; [|discriminate].
    injection Ha as <-. exists node. split; [reflexivity|]. split; [reflexivity|].
    rewrite list_lookup_fmap, Hn. reflexivity. }
  split; [|exact Hnext].
  destruct nodes as [|first nodes]; [subst ams; contradiction|].
  exists first. split; [reflexivity|]. apply Hfirst. reflexivity.
Qed.

Lemma appended_chain_linked_witness :
  ∃ (hashes : list str) (self' : HashChain),
    add_all example_amendments fresh_ledger = (Ok hashes, self')
    ∧ length (chain self') = length example_amendments
    ∧ (∀ i a, example_amendments !! i = Some a →
         ∃ node, chain self' !! i = Some node ∧ amendment node = a
                 ∧ hashes !! i = Some (hash node))
    ∧ (∃ first, chain self' !! 0%nat = Some first ∧ parent_hash first = genesis)
    ∧ (∀ i node prev,
         chain self' !! S i = Some node → chain self' !! i = Some prev →
         parent_hash node = Some (hash prev)).
Proof.
  apply (appended_chain_linked (u "ACT-1") (u "Test Act") None fresh_ledger
           example_amendments).
  - vm_compute. reflexivity.
  - discriminate.
Defined.

Lemma verify_integrity_logs (self : HashChain) :
  ∃ (b : bool) (r : audit_record), verify_integrity Config_settings self = (Ok b, logged self r).
Proof.
  destruct (decide (Config.MAX_CHAIN_SIZE < Z.of_nat (length (chain self)))%Z) as [H|H].
  - eexists _, _. apply (verify_integrity_large self H).
  - rewrite verify_integrity_small by lia.
    destruct (verify_from_run (chain self) [] self eq_refl)
      as [[Hrun _] | (k & node & reason & _ & _ & Hrun & _)];
      cbn [length] in Hrun; rewrite Hrun; eexists _, _; reflexivity.
Qed.

(** C8.  [get_history] leaves the ledger as it is; [verify_integrity]
    leaves the chain as it is, whether it returns or raises (it touches
    nothing but the audit log); and [add_amendment] adds one node at the
    end, every node that was there staying where it was, with its
    amendment, parent hash and stored hash. *)
Theorem ledger_operations_frame (self : HashChain) :
  (∃ rows, get_history self = (Ok rows, self))
  ∧ (∀ cls : Config_binding, chain (verify_integrity cls self).2 = chain self)
  ∧ ∀ a : Amendment, ∃ node : ChainNode,
      (add_amendment a self).1 = Ok (hash node)
      ∧ amendment node = a
      ∧ chain (add_amendment a self).2 = chain self ++ [node]
      ∧ length (chain (add_amendment a self).2) = S (length (chain self))
      ∧ ∀ i old, chain self !! i = Some old →
                 chain (add_amendment a self).2 !! i = Some old.
Proof.
  split; [eexists; reflexivity|]. split.
  { intros [|]; [|reflexivity].
    destruct (verify_integrity_logs self) as (b & r & ->). reflexivity. }
  intros a. rewrite add_amendment_run. cbv zeta. cbn [fst snd chain].
  eexists. split; [reflexivity|]. split; [reflexivity|]. split; [reflexivity|].
  split; [rewrite length_app; cbn; lia|].
  intros i old Hi. apply lookup_app_l_Some. exact Hi.
Qed.



(** ** History *)

Lemma get_history_run (self : HashChain) :
  get_history self = (Ok (imap history_row (chain self)), self).
Proof. reflexivity. Qed.

(** C6, amended.  Every row of [get_history] has exactly the top-level
    keys [version] (the 1-based position of the node), [hash],
    [parent_hash] and [amendment]; the fields of the record are nested
    under [amendment], with the keys [content], [change_type], [author],
    [summary] and [timestamp]. *)
Theorem history_rows_nested (self : HashChain) :
  ∃ rows : list pyval,
    get_history self = (Ok rows, self)
    ∧ length rows = length (chain self)
    ∧ ∀ (i : nat) (node : ChainNode), chain self !! i = Some node →
        ∃ row : pyval,
          rows !! i = Some row
          ∧ row = VDict
              [ (u "version", VInt (Z.of_nat i + 1));
                (u "hash", VStr (hash node));
                (u "parent_hash", pyval_of_optional (parent_hash node));
                (u "amendment",
                   VDict [ (u "content", VStr (content (amendment node)));
                           (u "change_type", VStr (change_type (amendment node)));
                           (u "author", VStr (author (amendment node)));
                           (u "summary", VStr (summary (amendment node)));
                           (u "timestamp", VStr (timestamp (amendment node))) ]) ]
          ∧ keys row = [u "version"; u "hash"; u "parent_hash"; u "amendment"].
Proof.
  exists (imap history_row (chain self)).
  split; [apply get_history_run|]. split; [apply length_imap|].
  intros i node Hi. eexists. split.
  - rewrite list_lookup_imap, Hi. reflexivity.
  - split; reflexivity.
Qed.

(** C6 as stated fails: the first row of the example ledger has neither
    [content], [category], [author], [summary] nor [created_at] among its
    top-level keys. *)
Lemma history_row_not_flat :
  ∃ row rest,
    (get_history example_ledger).1 = Ok (row :: rest)
    ∧ keys row = [u "version"; u "hash"; u "parent_hash"; u "amendment"]
    ∧ (u "content" ∉ keys row) ∧ (u "category" ∉ keys row)
    ∧ (u "author" ∉ keys row) ∧ (u "summary" ∉ keys row)
    ∧ (u "created_at" ∉ keys row).
Proof.
  eexists _, _. split; [vm_compute; reflexivity|].
  split; [vm_compute; reflexivity|].
  repeat split; apply (bool_decide_unpack _); vm_compute; exact I.
Qed.

(** ** Validation of amendments *)

Lemma VALID_TYPES_spec (t : str) : t ∈ VALID_TYPES ↔ valid_type t.
Proof.
  unfold VALID_TYPES, valid_type. rewrite elem_of_union, !elem_of_singleton. tauto.
Qed.

(** C4, amended.  The three checks are made in order and the first that
    fails decides the exception: [EmptyContent] exactly when the content
    is empty or whitespace-only; [InvalidCategory] exactly when the content
    is not blank and the type is neither ['substantive'] nor ['editorial'];
    [EmptyAuthor] exactly when the content is not blank, the type is valid
    and the author is empty or whitespace-only; in every other case, and in
    no other, an [Amendment] is built, holding the given values. *)
Theorem Amendment_init_validation (c t a : str) (s : option str)
    (g : option LLMSummaryGenerator) (now : str) :
  let r := Amendment_init c t a s g now in
  (r = Raise EmptyContent ↔ whitespace_only c)
  ∧ (r = Raise InvalidCategory ↔ ¬ whitespace_only c ∧ ¬ valid_type t)
  ∧ (r = Raise EmptyAuthor ↔
       ¬ whitespace_only c ∧ valid_type t ∧ whitespace_only a)
  ∧ ((∃ rec, r = Ok rec) ↔
       ¬ whitespace_only c ∧ valid_type t ∧ ¬ whitespace_only a)
  ∧ (∀ rec, r = Ok rec →
       content rec = c ∧ change_type rec = t ∧ author rec = a
       ∧ timestamp rec = now).
Proof.
  cbv zeta. unfold Amendment_init, EmptyContent, InvalidCategory, EmptyAuthor.
  rewrite <- !blank_true, <- VALID_TYPES_spec.
  destruct (blank c) eqn:Hc; [settle_outcome|].
  case_bool_decide as Ht; [settle_outcome|].
  destruct (blank a) eqn:Ha; settle_outcome.
Qed.

(** C4 as stated fails: with an empty content and an invalid type the
    exception is [EmptyContent], not [InvalidCategory]; with an invalid
    type and an empty author it is [InvalidCategory], not [EmptyAuthor]. *)
Lemma validation_error_precedence :
  let r := Amendment_init [] (u "bogus") (u "Alice") None None example_time in
  let r' := Amendment_init (u "x") (u "bogus") [] None None example_time in
  ¬ valid_type (u "bogus")
  ∧ r = Raise EmptyContent ∧ r ≠ Raise InvalidCategory
  ∧ whitespace_only []
  ∧ r' = Raise InvalidCategory ∧ r' ≠ Raise EmptyAuthor.
Proof.
  cbv zeta. split.
  { rewrite <- VALID_TYPES_spec. apply (bool_decide_unpack _). vm_compute. exact I. }
  split; [vm_compute; reflexivity|]. split; [vm_compute; discriminate|].
  split; [constructor|]. split; [vm_compute; reflexivity|vm_compute; discriminate].
Qed.

(** C9 as stated fails: with a summariser, an empty summary is replaced
    by the summariser's text for the content, not by ["No summary"]. *)
Lemma empty_summary_not_placeholder :
  ∃ rec : Amendment,
    Amendment_init (u "A") (u "substantive") (u "Alice") (Some [])
                   (Some {| api_key := None |}) example_time = Ok rec
    ∧ summary rec = u "A"
    ∧ summary rec ≠ u "No summary".
Proof.
  eexists. split; [vm_compute; reflexivity|]. split; [reflexivity|].
  vm_compute. discriminate.
Qed.

(** ** The summariser *)

(** Every key of the table starts with a lowercase ASCII letter, and every
    replacement with an ASCII character: [legal[0]] exists, and the case
    mappings are applied where they are exact. *)
Lemma REPLACEMENTS_keys :
  Forall (fun entry : str * str =>
            match entry with
            | (c :: _, d :: _) => (0x61 <=? c) && (c <=? 0x7A) && (d <? 0x80) = true
            | _ => False
            end) REPLACEMENTS.
Proof.
  unfold REPLACEMENTS. repeat (constructor; [vm_compute; reflexivity|]). constructor.
Qed.

Lemma rsplit_last_none (sep : N) (s : str) : rsplit_last sep s = None ↔ sep ∉ s.
Proof.
  induction s as [|c s IH]; cbn [rsplit_last].
  - split; [intros _; apply not_elem_of_nil|reflexivity].
  - rewrite not_elem_of_cons.
    destruct (rsplit_last sep s) as [[a b]|].
    + split; [discriminate|]. intros [_ H]. apply IH in H. discriminate.
    + destruct (N.eqb_spec c sep) as [->|Hne].
      * split; [discriminate|]. intros [H _]. congruence.
      * split; [|reflexivity]. intros _. split; [congruence|]. apply IH. reflexivity.
Qed.

Lemma rsplit_last_some (sep : N) (s a b : str) :
  rsplit_last sep s = Some (a, b) ↔ s = a ++ sep :: b ∧ sep ∉ b.
Proof.
  split.
  - revert a. induction s as [|c s IH]; intros a; cbn [rsplit_last]; [discriminate|].
    destruct (rsplit_last sep s) as [[a' b']|] eqn:E.
    + intros [= <- <-]. destruct (IH a' eq_refl) as [-> Hb]. split; [reflexivity|exact Hb].
    + destruct (N.eqb_spec c sep) as [->|Hne]; [|discriminate].
      intros [= <- <-]. split; [reflexivity|]. apply rsplit_last_none, E.
  - intros [-> Hb]. induction a as [|x a IH]; cbn [app rsplit_last].
    + apply rsplit_last_none in Hb. rewrite Hb, N.eqb_refl. reflexivity.
    + rewrite IH. reflexivity.
Qed.

(** C7, amended.  For an empty or whitespace-only text [simplify] returns
    ["No content"].  Otherwise, when the text after substitution has more
    than 200 characters, the summary is its first 200 characters cut
    before their last space (U+0020), or kept whole when they hold no
    space, followed by ["..."]; a shorter text is returned as substituted. *)
Theorem simplify_summary (g : LLMSummaryGenerator) (text : str) :
  let simple := substituted text in
  let cut := take 200 simple in
  (whitespace_only text ∧ simplify g text = u "No content")
  ∨ (¬ whitespace_only text ∧ (length simple ≤ 200)%nat ∧ simplify g text = simple)
  ∨ (¬ whitespace_only text ∧ (200 < length simple)%nat
     ∧ (((space ∉ cut) ∧ simplify g text = cut ++ u "...")
        ∨ ∃ a b : str, cut = a ++ space :: b ∧ (space ∉ b)
                       ∧ simplify g text = a ++ u "...")).
Proof.
  intros simple cut. unfold simplify.
  destruct (blank text) eqn:Hb.
  { left. split; [apply blank_true, Hb|reflexivity]. }
  right. apply blank_false in Hb.
  assert (Hsame : (if use_real_llm g then _fallback_simplify text
                   else _fallback_simplify text) = _fallback_simplify text)
    by (destruct (use_real_llm g); reflexivity).
  rewrite Hsame. unfold _fallback_simplify. fold simple. cbv zeta. fold cut.
  destruct (Nat.ltb_spec 200 (length simple)) as [Hlong|Hshort].
  - right. split; [exact Hb|]. split; [exact Hlong|].
    unfold rsplit1. destruct (rsplit_last space cut) as [[a b]|] eqn:E.
    + right. apply rsplit_last_some in E as [E Hb']. exists a, b.
      split; [exact E|]. split; [exact Hb'|reflexivity].
    + left. apply rsplit_last_none in E. split; [exact E|reflexivity].
  - left. split; [exact Hb|]. split; [exact Hshort|reflexivity].
Qed.

(** C7 as stated fails: the sentinel is ["No content"], not
    ["no content"]; and a long text whose only whitespace is a tab is not
    cut at the tab but keeps its first 200 characters. *)
Lemma simplify_not_as_specified :
  let g := {| api_key := None |} in
  simplify g [] = u "No content" ∧ simplify g [] ≠ u "no content"
  ∧ blank tabbed_text = false
  ∧ (200 < length (substituted tabbed_text))%nat
  ∧ cut_at_whitespace (substituted tabbed_text) = Some (u "a...")
  ∧ simplify g tabbed_text = take 200 tabbed_text ++ u "..."
  ∧ simplify g tabbed_text ≠ u "a...".
Proof.
  cbv zeta. split; [reflexivity|]. split; [vm_compute; discriminate|].
  split; [vm_compute; reflexivity|]. split; [vm_compute; lia|].
  split; [vm_compute; reflexivity|]. split; [vm_compute; reflexivity|].
  vm_compute. discriminate.
Qed.

Lemma verify_integrity_correct_witness :
  ∃ b : bool,
    (verify_integrity Config_settings example_ledger).1 = Ok b
    ∧ (b = true ↔
         (∀ i node, chain example_ledger !! i = Some node → hash_check node)
         ∧ (∀ i node prev,
              chain example_ledger !! S i = Some node →
              chain example_ledger !! i = Some prev →
              parent_hash node = Some (hash prev)))
    ∧ (b = false →
         ∃ (i : nat) (node : ChainNode) (reason : str),
           chain example_ledger !! i = Some node
           ∧ (∀ j m, (j < i)%nat → chain example_ledger !! j = Some m →
                hash_check m ∧ link_check (chain example_ledger) j m)
           ∧ (verify_integrity Config_settings example_ledger).2
             = logged example_ledger (tampering_record example_ledger i reason)
           ∧ ((¬ hash_check node ∧ reason = u "hash_mismatch")
              ∨ (hash_check node ∧ ¬ link_check (chain example_ledger) i node
                 ∧ reason = u "parent_link_broken"))).
Proof.
  apply (verify_integrity_correct example_ledger). vm_compute. discriminate.
Defined.

Lemma verify_integrity_fails_closed_witness :
  Config.MAX_CHAIN_SIZE = 10000%Z
  ∧ (verify_integrity Config_settings oversized_ledger).1 = Ok false
  ∧ (verify_integrity Config_settings oversized_ledger).2
    = logged oversized_ledger (too_large_record oversized_ledger).
Proof.
  apply (verify_integrity_fails_closed oversized_ledger). vm_compute. reflexivity.
Defined.

Lemma calculate_hash_equivalent_witness :
  ∃ d : str,
    _calculate_hash (example_amendment (u "A") (u "Alice")) (Some (u "00ff")) = Ok d
    ∧ crypto_utils._calculate_hash
        {| crypto_utils.content := u "A";
           crypto_utils.change_type := u "substantive";
           crypto_utils.author := u "Alice";
           crypto_utils.timestamp := example_time;
           crypto_utils.summary := u "No summary" |} (Some (u "00ff")) = Ok d
    ∧ length d = 64%nat
    ∧ Forall (fun c => is_hexdigit c = true) d.
Proof.
  apply (calculate_hash_equivalent (example_amendment (u "A") (u "Alice")));
    reflexivity.
Defined.

(** An empty summary is treated as an omitted one, with or without a
    summariser. *)
Lemma empty_summary_as_omitted (c t a now : str) (g : option LLMSummaryGenerator) :
  Amendment_init c t a (Some []) g now = Amendment_init c t a None g now.
Proof. reflexivity. Qed.

(** ** More on verification *)

Lemma passes_lookup (c c' : list ChainNode) (i : nat) (node : ChainNode) :
  c' !! (i - 1)%nat = c !! (i - 1)%nat → passes c i node → passes c' i node.
Proof.
  unfold passes, link_check. intros E [Hh Hl]. split; [exact Hh|].
  intros prev Hi Hp. rewrite E in Hp. exact (Hl prev Hi Hp).
Qed.

Lemma verify_integrity_true (self : HashChain) :
  (verify_integrity Config_settings self).1 = Ok true
  ↔ (Z.of_nat (length (chain self)) ≤ Config.MAX_CHAIN_SIZE)%Z
    ∧ ∀ i node, chain self !! i = Some node → passes (chain self) i node.
Proof.
  destruct (decide (Config.MAX_CHAIN_SIZE < Z.of_nat (length (chain self)))%Z) as [H|H].
  - rewrite (verify_integrity_large self H). cbn [fst]. split; [discriminate|lia].
  - assert (Hsize : (Z.of_nat (length (chain self)) ≤ Config.MAX_CHAIN_SIZE)%Z) by lia.
    rewrite (verify_integrity_small self Hsize).
    destruct (verify_from_run (chain self) [] self eq_refl)
      as [[Hrun Hall] | (k & node & reason & Hk & _ & Hrun & Hwhy)];
      cbn [length Nat.add] in *; rewrite Hrun; cbn [fst].
    + split; [intros _; split; [exact Hsize|exact Hall]|reflexivity].
    + split; [discriminate|]. intros [_ Hall]. exfalso.
      destruct (Hall k node Hk) as [Hh Hl].
      destruct Hwhy as [[Hno _] | (_ & Hno & _)]; contradiction.
Qed.

Lemma verify_integrity_false_at (self : HashChain) (i : nat) (node : ChainNode) :
  (Z.of_nat (length (chain self)) ≤ Config.MAX_CHAIN_SIZE)%Z →
  chain self !! i = Some node →
  (∀ j m, (j < i)%nat → chain self !! j = Some m → passes (chain self) j m) →
  ¬ passes (chain self) i node →
  verify_integrity Config_settings self
  = (Ok false, logged self (tampering_record self i (failure_reason node))).
Proof.
  intros Hsize Hi Hbefore Hfail. rewrite (verify_integrity_small self Hsize).
  destruct (verify_from_run (chain self) [] self eq_refl)
    as [[_ Hall] | (k & n & reason & Hk & Hkbefore & Hrun & Hwhy)];
    cbn [length Nat.add] in *.
  { exfalso. apply Hfail. exact (Hall i node Hi). }
  assert (k = i) as ->.
  { destruct (Nat.lt_trichotomy k i) as [Hlt|[E|Hgt]]; [|exact E|].
    - exfalso. destruct (Hbefore k n Hlt Hk) as [Hh Hl].
      destruct Hwhy as [[Hno _] | (_ & Hno & _)]; contradiction.
    - exfalso. apply Hfail. exact (Hkbefore i node Hgt Hi). }
  rewrite Hi in Hk. injection Hk as <-. rewrite Hrun. do 3 f_equal.
  unfold failure_reason.
  destruct Hwhy as [[Hno ->] | (Hyes & _ & ->)].
  - rewrite bool_decide_eq_false_2 by exact Hno. reflexivity.
  - rewrite bool_decide_eq_true_2 by exact Hyes. reflexivity.
Qed.

Lemma hash_check_set_hash (h : str) (node : ChainNode) :
  hash_check node → hash_check (set_hash h node) → h = hash node.
Proof.
  rewrite !hash_check_digest. cbn [set_hash hash amendment parent_hash]. congruence.
Qed.

(** X1.  A stored hash that is overwritten is found: in a chain that
    verified, after [chain.chain[i].hash = h] with another value,
    [verify_integrity] returns [False] and logs a hash mismatch at node
    [i].
    [cls] is what [Config] is bound to when the method runs; a chain
    verifies under the settings class only. *)
Theorem overwritten_hash_detected (cls : Config_binding)
    (self : HashChain) (i : nat) (node : ChainNode)
    (h : str) :
  (verify_integrity cls self).1 = Ok true →
  chain self !! i = Some node →
  h ≠ hash node →
  let tampered := with_chain self (<[i := set_hash h node]> (chain self)) in
  verify_integrity cls tampered
  = (Ok false, logged tampered (tampering_record tampered i (u "hash_mismatch"))).
Proof.
  intros Hcls. pose proof (verify_integrity_returns _ _ _ Hcls) as ->. revert Hcls.
  intros Hok Hi Hh tampered. apply verify_integrity_true in Hok as [Hsize Hall].
  assert (Hlen : (i < length (chain self))%nat) by (apply lookup_lt_is_Some; eauto).
  assert (Hbad : ¬ hash_check (set_hash h node)).
  { intros H. apply Hh. apply (hash_check_set_hash h node); [|exact H].
    apply (Hall i node Hi). }
  rewrite (verify_integrity_false_at tampered i (set_hash h node)).
  - unfold failure_reason. rewrite bool_decide_eq_false_2 by exact Hbad. reflexivity.
  - cbn [tampered with_chain chain]. rewrite length_insert. exact Hsize.
  - cbn [tampered with_chain chain]. apply list_lookup_insert_eq. exact Hlen.
  - intros j m Hj Hm. cbn [tampered with_chain chain] in *.
    rewrite list_lookup_insert_ne in Hm by lia.
    apply (passes_lookup (chain self)); [|apply (Hall j m Hm)].
    apply list_lookup_insert_ne. lia.
  - intros [H _]. contradiction.
Qed.

(** X2.  A parent link that is overwritten is found: in a chain that
    verified, after [chain.chain[i].parent_hash = p] with another value on
    a node that is not the first, [verify_integrity] returns [False] and
    logs node [i], with the reason of the first of the two checks that
    fails there.
    [cls] is what [Config] is bound to when the method runs; a chain
    verifies under the settings class only. *)
Theorem overwritten_parent_detected (cls : Config_binding)
    (self : HashChain) (i : nat) (node : ChainNode)
    (p : option str) :
  (verify_integrity cls self).1 = Ok true →
  chain self !! i = Some node →
  (0 < i)%nat →
  p ≠ parent_hash node →
  let tampered := with_chain self (<[i := set_parent_hash p node]> (chain self)) in
  verify_integrity cls tampered
  = (Ok false,
     logged tampered
       (tampering_record tampered i (failure_reason (set_parent_hash p node)))).
Proof.
  intros Hcls. pose proof (verify_integrity_returns _ _ _ Hcls) as ->. revert Hcls.
  intros Hok Hi Hpos Hp tampered. apply verify_integrity_true in Hok as [Hsize Hall].
  assert (Hlen : (i < length (chain self))%nat) by (apply lookup_lt_is_Some; eauto).
  destruct (lookup_lt_is_Some_2 (chain self) (i - 1)) as [prev Hprev]; [lia|].
  apply (verify_integrity_false_at tampered i (set_parent_hash p node)).
  - cbn [tampered with_chain chain]. rewrite length_insert. exact Hsize.
  - cbn [tampered with_chain chain]. apply list_lookup_insert_eq. exact Hlen.
  - intros j m Hj Hm. cbn [tampered with_chain chain] in *.
    rewrite list_lookup_insert_ne in Hm by lia.
    apply (passes_lookup (chain self)); [|apply (Hall j m Hm)].
    apply list_lookup_insert_ne. lia.
  - intros [_ Hl]. apply Hp.
    destruct (Hall i node Hi) as [_ Hold]. rewrite (Hold prev Hpos Hprev).
    apply (Hl prev Hpos). cbn [tampered with_chain chain].
    rewrite list_lookup_insert_ne by lia. exact Hprev.
Qed.

(** X3.  A node spliced into the middle is found at the node after it: in
    a chain that verified, after [chain.chain.insert(k, new)] of a node
    with a right hash and a right link to node [k - 1], the node that
    followed node [k - 1] still names that node's hash;
    [verify_integrity] returns [False] with a broken parent link at node
    [k + 1], unless the new node's hash equals the hash of the node
    before it.
    [cls] is what [Config] is bound to when the method runs; a chain
    verifies under the settings class only. *)
Theorem inserted_node_detected (cls : Config_binding)
    (self : HashChain) (k : nat) (a : Amendment)
    (prev next new : ChainNode) :
  (verify_integrity cls self).1 = Ok true →
  (Z.of_nat (length (chain self)) < Config.MAX_CHAIN_SIZE)%Z →
  chain self !! k = Some prev →
  chain self !! S k = Some next →
  ChainNode_init a (Some (hash prev)) = Ok new →
  hash new ≠ hash prev →
  let tampered := with_chain self (list_insert_at (S k) new (chain self)) in
  verify_integrity cls tampered
  = (Ok false,
     logged tampered (tampering_record tampered (S (S k)) (u "parent_link_broken"))).
Proof.
  intros Hcls. pose proof (verify_integrity_returns _ _ _ Hcls) as ->. revert Hcls.
  intros Hok Hroom Hprev Hnext Hnew Hne tampered.
  apply verify_integrity_true in Hok as [Hsize Hall].
  rewrite ChainNode_init_total in Hnew. injection Hnew as <-.
  set (new := {| amendment := a; parent_hash := Some (hash prev);
                 hash := entry_digest a (Some (hash prev)) |}) in *.
  assert (Hlen : (S k < length (chain self))%nat) by (apply lookup_lt_is_Some; eauto).
  assert (Htake : ∀ j, (j ≤ k)%nat → chain tampered !! j = chain self !! j).
  { intros j Hj. cbn [tampered with_chain chain]. unfold list_insert_at.
    rewrite lookup_app_l by (rewrite length_take; lia).
    apply lookup_take_lt. lia. }
  assert (Hat : chain tampered !! S k = Some new).
  { cbn [tampered with_chain chain]. unfold list_insert_at.
    rewrite lookup_app_r by (rewrite length_take; lia).
    rewrite length_take, Nat.min_l by lia. rewrite Nat.sub_diag. reflexivity. }
  assert (Hafter : chain tampered !! S (S k) = Some next).
  { cbn [tampered with_chain chain]. unfold list_insert_at.
    rewrite lookup_app_r by (rewrite length_take; lia).
    rewrite length_take, Nat.min_l by lia.
    replace (S (S k) - S k)%nat with 1%nat by lia.
    change ((new :: drop (S k) (chain self)) !! 1%nat)
      with (drop (S k) (chain self) !! 0%nat).
    rewrite lookup_drop, Nat.add_0_r. exact Hnext. }
  destruct (Hall (S k) next Hnext) as [Hnh Hnl].
  rewrite (verify_integrity_false_at tampered (S (S k)) next).
  - unfold failure_reason. rewrite bool_decide_eq_true_2 by exact Hnh. reflexivity.
  - cbn [tampered with_chain chain]. unfold list_insert_at.
    rewrite length_app, length_take. cbn [length]. rewrite length_drop. lia.
  - exact Hafter.
  - intros j m Hj Hm.
    destruct (decide (j = S k)) as [->|Hjk].
    + rewrite Hat in Hm. injection Hm as <-. split.
      * apply hash_check_digest. reflexivity.
      * intros prev' _ Hp. rewrite Nat.sub_1_r in Hp. cbn [pred] in Hp.
        rewrite Htake in Hp by lia. rewrite Hprev in Hp. injection Hp as <-. reflexivity.
    + assert (Hjle : (j ≤ k)%nat) by lia. rewrite Htake in Hm by lia.
      apply (passes_lookup (chain self)); [|apply (Hall j m Hm)].
      apply Htake. lia.
  - intros [_ Hl]. apply Hne.
    assert (Ha : parent_hash next = Some (hash new)).
    { apply (Hl new); [lia|]. rewrite Nat.sub_1_r. cbn [pred]. exact Hat. }
    assert (Hb : parent_hash next = Some (hash prev)).
    { apply (Hnl prev); [lia|]. rewrite Nat.sub_1_r. cbn [pred]. exact Hprev. }
    congruence.
Qed.



(** X6.  Appending keeps a valid ledger valid: when [verify_integrity]
    returns [True] and the chain is below the size limit, it returns [True]
    again after [add_amendment].
    [cls] is what [Config] is bound to when the method runs; a chain
    verifies under the settings class only. *)
Theorem append_keeps_valid (cls : Config_binding) (self : HashChain) (a : Amendment) :
  (verify_integrity cls self).1 = Ok true →
  (Z.of_nat (length (chain self)) < Config.MAX_CHAIN_SIZE)%Z →
  (verify_integrity cls (add_amendment a self).2).1 = Ok true.
Proof.
  intros Hcls. pose proof (verify_integrity_returns _ _ _ Hcls) as ->. revert Hcls.
  intros Hok Hroom. apply verify_integrity_true in Hok as [_ Hall].
  rewrite add_amendment_run. cbv zeta. cbn [snd].
  apply verify_integrity_true. cbn [chain]. split.
  { rewrite length_app. cbn [length]. lia. }
  intros i node Hi. apply lookup_app_Some in Hi as [Hi | [Hge Hi]].
  - apply (passes_lookup (chain self)); [|apply (Hall i node Hi)].
    apply lookup_app_l. apply lookup_lt_Some in Hi. lia.
  - apply list_lookup_singleton_Some in Hi as [Hi <-].
    assert (i = length (chain self)) as -> by lia.
    split; [apply hash_check_digest; reflexivity|].
    intros prev Hpos Hp. cbn [parent_hash hash].
    rewrite lookup_app_l in Hp by lia. rewrite Nat.sub_1_r in Hp.
    rewrite last_lookup, Hp. reflexivity.
Qed.

(** X7.  [verify_integrity] accepts every run of consecutive nodes of a
    chain it accepts: dropping the newest nodes, or the oldest (the parent
    hash of the first node is not looked at), goes unnoticed.
    [cls] is what [Config] is bound to when the method runs; a chain
    verifies under the settings class only. *)
Theorem segment_verifies (cls : Config_binding) (self : HashChain) (j k : nat) :
  (verify_integrity cls self).1 = Ok true →
  (verify_integrity cls (with_chain self (take k (drop j (chain self))))).1 = Ok true.
Proof.
  intros Hcls. pose proof (verify_integrity_returns _ _ _ Hcls) as ->. revert Hcls.
  intros Hok. apply verify_integrity_true in Hok as [Hsize Hall].
  apply verify_integrity_true. cbn [with_chain chain]. split.
  { rewrite length_take, length_drop. lia. }
  intros i node Hi. apply lookup_take_Some in Hi as [Hi Hik].
  rewrite lookup_drop in Hi. destruct (Hall _ node Hi) as [Hh Hl]. split; [exact Hh|].
  intros prev Hpos Hp. apply lookup_take_Some in Hp as [Hp _].
  rewrite lookup_drop in Hp. apply (Hl prev); [lia|].
  replace (j + i - 1)%nat with (j + (i - 1))%nat by lia. exact Hp.
Qed.

(** X8.  [HashChain(act_id, act_title)] raises "Act ID required" exactly
    when the id is empty or whitespace-only, "Act title required" exactly
    when the id is not blank and the title is; otherwise it returns a
    ledger with these two values, no node and an empty audit log. *)
Theorem HashChain_init_validation (id title : str) (g : option LLMSummaryGenerator) :
  let r := HashChain_init id title g in
  (r = Raise (ValueError Act_ID_required) ↔ whitespace_only id)
  ∧ (r = Raise (ValueError Act_title_required) ↔
       ¬ whitespace_only id ∧ whitespace_only title)
  ∧ (∀ self, r = Ok self ↔
       ¬ whitespace_only id ∧ ¬ whitespace_only title
       ∧ self = {| act_id := id; act_title := title; chain := [];
                   llm := g; audit := [] |}).
Proof.
  cbv zeta. unfold HashChain_init.
  destruct (blank id) eqn:Hi.
  { apply blank_true in Hi. split; [tauto|]. split.
    - split; [discriminate|tauto].
    - intros self. split; [discriminate|tauto]. }
  apply blank_false in Hi.
  destruct (blank title) eqn:Ht.
  { apply blank_true in Ht. split; [split; [discriminate|tauto]|]. split.
    - tauto.
    - intros self. split; [discriminate|tauto]. }
  apply blank_false in Ht.
  split; [split; [discriminate|tauto]|].
  split; [split; [discriminate|tauto]|].
  intros self. split.
  - intros [= <-]. tauto.
  - intros (_ & _ & ->). reflexivity.
Qed.


Lemma overwritten_hash_detected_witness :
  let tampered :=
    with_chain example_ledger
      (<[1%nat := set_hash (u "fake_hash") (example_node 1)]> (chain example_ledger)) in
  verify_integrity Config_settings tampered
  = (Ok false, logged tampered (tampering_record tampered 1 (u "hash_mismatch"))).
Proof.
  apply (overwritten_hash_detected Config_settings example_ledger 1 (example_node 1)
           (u "fake_hash")).
  - vm_compute. reflexivity.
  - vm_compute. reflexivity.
  - vm_compute. discriminate.
Defined.

Lemma overwritten_parent_detected_witness :
  let tampered :=
    with_chain example_ledger
      (<[1%nat := set_parent_hash (Some (u "fake_parent_hash")) (example_node 1)]>
         (chain example_ledger)) in
  verify_integrity Config_settings tampered
  = (Ok false,
     logged tampered
       (tampering_record tampered 1
          (failure_reason
             (set_parent_hash (Some (u "fake_parent_hash")) (example_node 1))))).
Proof.
  apply (overwritten_parent_detected Config_settings example_ledger 1 (example_node 1)
           (Some (u "fake_parent_hash"))).
  - vm_compute. reflexivity.
  - vm_compute. reflexivity.
  - lia.
  - vm_compute. discriminate.
Defined.

Lemma inserted_node_detected_witness :
  let tampered :=
    with_chain example_ledger (list_insert_at 1 example_inserted (chain example_ledger)) in
  verify_integrity Config_settings tampered
  = (Ok false,
     logged tampered (tampering_record tampered 2 (u "parent_link_broken"))).
Proof.
  apply (inserted_node_detected Config_settings example_ledger 0
           (example_amendment (u "INSERTED CONTENT") (u "Attacker"))
           (example_node 0) (example_node 1) example_inserted).
  - vm_compute. reflexivity.
  - vm_compute. reflexivity.
  - vm_compute. reflexivity.
  - vm_compute. reflexivity.
  - vm_compute. reflexivity.
  - vm_compute. discriminate.
Defined.


Lemma append_keeps_valid_witness :
  (verify_integrity Config_settings
     (add_amendment (example_amendment (u "D") (u "Dan")) example_ledger).2).1 = Ok true.
Proof.
  apply (append_keeps_valid Config_settings example_ledger).
  - vm_compute. reflexivity.
  - vm_compute. reflexivity.
Defined.

Lemma segment_verifies_witness :
  (verify_integrity Config_settings
     (with_chain example_ledger (take 1 (drop 1 (chain example_ledger))))).1
  = Ok true.
Proof.
  apply (segment_verifies Config_settings example_ledger 1 1). vm_compute. reflexivity.
Defined.

(** ** More on the summariser *)

Lemma replace_nonempty (old new s : str) : s ≠ [] → new ≠ [] → replace old new s ≠ [].
Proof.
  intros Hs Hnew. unfold replace. destruct old as [|o old].
  - destruct new; [contradiction|discriminate].
  - destruct s as [|c s]; [contradiction|]. cbn [replace_from].
    destruct (startswith (o :: old) (c :: s)); [|discriminate].
    destruct new; [contradiction|discriminate].
Qed.

Lemma substitute_nonempty (simple : str) (entry : str * str) :
  simple ≠ [] → entry.2 ≠ [] → substitute simple entry ≠ [].
Proof.
  destruct entry as [legal plain]. cbn [snd]. intros Hs Hp. unfold substitute.
  pose proof (replace_nonempty legal plain simple Hs Hp) as H.
  destruct legal as [|c rest]; [exact H|].
  destruct (islower c); [|exact H].
  apply replace_nonempty; [exact H|]. destruct plain; [contradiction|discriminate].
Qed.

Lemma substituted_nonempty (text : str) : text ≠ [] → substituted text ≠ [].
Proof.
  intros Ht. unfold substituted. cbv zeta.
  apply replace_nonempty; [|vm_compute; discriminate].
  apply replace_nonempty; [|vm_compute; discriminate].
  pose proof REPLACEMENTS_keys as Hk. revert text Ht.
  induction Hk as [|[legal plain] table Hentry _ IH]; intros text Ht; [exact Ht|].
  cbn [fold_left]. apply IH. apply substitute_nonempty; [exact Ht|].
  destruct legal; [contradiction|]. destruct plain; [contradiction|discriminate].
Qed.

Lemma rsplit1_head_length (sep : N) (s : str) :
  (length (default [] (head (rsplit1 sep s))) ≤ length s)%nat.
Proof.
  unfold rsplit1. destruct (rsplit_last sep s) as [[a b]|] eqn:E; simpl.
  - apply rsplit_last_some in E as [-> _]. rewrite length_app. lia.
  - lia.
Qed.

Lemma simplify_nonempty (g : LLMSummaryGenerator) (text : str) :
  simplify g text ≠ [].
Proof.
  unfold simplify. destruct (blank text) eqn:Hb; [vm_compute; discriminate|].
  assert (Ht : text ≠ []) by (intros ->; discriminate).
  assert (Hsame : (if use_real_llm g then _fallback_simplify text
                   else _fallback_simplify text) = _fallback_simplify text)
    by (destruct (use_real_llm g); reflexivity).
  rewrite Hsame. unfold _fallback_simplify. cbv zeta.
  destruct (200 <? length (substituted text))%nat.
  - intros H. apply app_eq_nil in H as [_ H]. revert H. vm_compute. discriminate.
  - apply substituted_nonempty, Ht.
Qed.

(** X12.  Whatever the text, [simplify] returns a summary that is not empty
    and has at most 203 characters (200 and the three dots). *)
Theorem simplify_bounds (g : LLMSummaryGenerator) (text : str) :
  simplify g text ≠ [] ∧ (length (simplify g text) ≤ 203)%nat.
Proof.
  split; [apply simplify_nonempty|].
  unfold simplify. destruct (blank text) eqn:Hb.
  { vm_compute. lia. }
  assert (Hsame : (if use_real_llm g then _fallback_simplify text
                   else _fallback_simplify text) = _fallback_simplify text)
    by (destruct (use_real_llm g); reflexivity).
  rewrite Hsame. unfold _fallback_simplify. cbv zeta.
  destruct (Nat.ltb_spec 200 (length (substituted text))) as [Hlong|Hshort].
  - rewrite length_app.
    pose proof (rsplit1_head_length space (take 200 (substituted text))) as Hh.
    rewrite length_take in Hh. change (length (u "...")) with 3%nat. lia.
  - lia.
Qed.

(** X13.  A built [Amendment] never has an empty summary, with or without a
    summariser: the summary is the supplied one when that is not empty,
    and otherwise the summariser's text or the placeholder. *)
Theorem summary_never_empty (c t a now : str) (given : option str)
    (g : option LLMSummaryGenerator) (rec : Amendment) :
  Amendment_init c t a given g now = Ok rec →
  summary rec ≠ []
  ∧ (∀ s, given = Some s → s ≠ [] → summary rec = s)
  ∧ (given = None ∨ given = Some [] →
       summary rec = match g with
                     | Some gen => simplify gen c
                     | None => u "No summary"
                     end).
Proof.
  unfold Amendment_init.
  destruct (blank c); [discriminate|].
  destruct (bool_decide (t ∉ VALID_TYPES)); [discriminate|].
  destruct (blank a); [discriminate|].
  intros [= <-]. cbn [summary]. unfold summary_or. cbv zeta.
  assert (Hfall : match g with
                  | Some gen => simplify gen c
                  | None => u "No summary"
                  end ≠ []).
  { destruct g as [gen|]; [apply simplify_nonempty|vm_compute; discriminate]. }
  split; [|split].
  - destruct given as [[|x s]|]; cbn [truthy]; try exact Hfall. discriminate.
  - intros s -> Hs. destruct s; [contradiction|reflexivity].
  - intros [-> | ->]; reflexivity.
Qed.

Lemma summary_never_empty_witness :
  let rec := example_amendment (u "A") (u "Alice") in
  summary rec ≠ []
  ∧ (∀ s, Some (u "No summary") = Some s → s ≠ [] → summary rec = s)
  ∧ (Some (u "No summary") = None ∨ Some (u "No summary") = Some [] →
       summary rec = u "No summary").
Proof.
  apply (summary_never_empty (u "A") (u "substantive") (u "Alice") example_time
           (Some (u "No summary")) None (example_amendment (u "A") (u "Alice"))).
  vm_compute. reflexivity.
Defined.

(** C9, amended.  A supplied summary that is the empty string is
    discarded, as an omitted one: the record built is the one built
    without a summary, whose summary is the summariser's text for the
    content when a summariser is given and the placeholder ["No summary"]
    when none is; in both cases it is not the empty string. *)
Theorem empty_summary_replaced (c t a now : str) (g : option LLMSummaryGenerator) :
  Amendment_init c t a (Some []) g now = Amendment_init c t a None g now
  ∧ ∀ rec : Amendment,
      Amendment_init c t a (Some []) g now = Ok rec →
      summary rec = match g with
                    | Some gen => simplify gen c
                    | None => u "No summary"
                    end
      ∧ summary rec ≠ [].
Proof.
  split; [reflexivity|]. intros rec. unfold Amendment_init.
  destruct (blank c); [discriminate|].
  destruct (bool_decide (t ∉ VALID_TYPES)); [discriminate|].
  destruct (blank a); [discriminate|].
  intros [= <-]. cbn [summary summary_or truthy]. split; [reflexivity|].
  destruct g as [gen|]; [apply simplify_nonempty|vm_compute; discriminate].
Qed.

(** ** The serialisation can be read back *)

Lemma render_fields (xa xt xc xs xts : str) :
  join (u ", ")
    (map (fun kv : str * str => json_string kv.1 ++ u ": " ++ kv.2)
       (sort_by_key [ (u "content", xc); (u "change_type", xt); (u "author", xa);
                      (u "summary", xs); (u "timestamp", xts) ]))
  = q "'author': " ++ xa ++ q ", 'change_type': " ++ xt ++ q ", 'content': " ++ xc
    ++ q ", 'summary': " ++ xs ++ q ", 'timestamp': " ++ xts.
Proof. vm_compute. reflexivity. Qed.

Lemma render_node (x y : str) :
  join (u ", ")
    (map (fun kv : str * str => json_string kv.1 ++ u ": " ++ kv.2)
       (sort_by_key [ (u "amendment", x); (u "parent_hash", y) ]))
  = q "'amendment': " ++ x ++ q ", 'parent_hash': " ++ y.
Proof. vm_compute. reflexivity. Qed.

Lemma hash_text_dumps (a : Amendment) (p : option str) :
  json_dumps (hash_input a p) = hash_text a p.
Proof.
  unfold hash_input, to_dict. rewrite json_dumps_dict. cbn [map fst snd].
  rewrite json_dumps_dict. cbn [map fst snd json_dumps].
  rewrite render_fields, render_node. rewrite <- !app_assoc.
  destruct p as [h|]; reflexivity.
Qed.

Lemma nibble_div (k n : N) : nibble k n = (n / 2 ^ k) mod 16.
Proof.
  unfold nibble. change 0xF with (N.ones 4). rewrite N.land_ones, N.shiftr_div_pow2.
  reflexivity.
Qed.

Lemma nibbles_sum (n : N) :
  n < 0x10000 →
  nibble 12 n * 4096 + nibble 8 n * 256 + nibble 4 n * 16 + nibble 0 n = n.
Proof.
  intros H. rewrite !nibble_div.
  change (2 ^ 12) with 4096. change (2 ^ 8) with 256. change (2 ^ 4) with 16.
  change (2 ^ 0) with 1. rewrite N.div_1_r.
  zify. Z.to_euclidean_division_equations. lia.
Qed.

Lemma testbit_high (b k i : N) : b < 2 ^ k → k ≤ i → N.testbit b i = false.
Proof.
  intros Hb Hi. destruct (N.eq_dec b 0) as [->|Hb0]; [apply N.bits_0|].
  apply N.bits_above_log2. apply N.lt_le_trans with k; [|exact Hi].
  apply N.log2_lt_pow2; [lia|exact Hb].
Qed.

Lemma land_low (a b k : N) : b < 2 ^ k → N.land (a * 2 ^ k) b = 0.
Proof.
  intros Hb. apply N.bits_inj. intros i. rewrite N.land_spec, N.bits_0.
  destruct (N.lt_ge_cases i k) as [Hi|Hi].
  - rewrite N.mul_pow2_bits_low by exact Hi. reflexivity.
  - rewrite (testbit_high b k i Hb Hi). apply andb_false_r.
Qed.

Lemma lor_low (a b k : N) : b < 2 ^ k → N.lor (a * 2 ^ k) b = a * 2 ^ k + b.
Proof.
  intros Hb. rewrite N.add_nocarry_lxor by (apply land_low, Hb).
  symmetry. apply N.lxor_lor, land_low, Hb.
Qed.

Lemma unhexdigit_hexdigit (k : N) : k < 16 → unhexdigit (hexdigit k) = Some k.
Proof.
  intros Hk. unfold hexdigit, unhexdigit. destruct (N.ltb_spec k 10) as [H|H].
  - replace ((0x30 <=? 0x30 + k) && (0x30 + k <=? 0x39)) with true
      by (symmetry; apply andb_true_iff; split; apply N.leb_le; lia).
    f_equal. lia.
  - replace ((0x30 <=? 0x57 + k) && (0x57 + k <=? 0x39)) with false
      by (symmetry; apply andb_false_iff; right; apply N.leb_gt; lia).
    replace ((0x61 <=? 0x57 + k) && (0x57 + k <=? 0x66)) with true
      by (symmetry; apply andb_true_iff; split; apply N.leb_le; lia).
    f_equal. lia.
Qed.

Lemma unhex4_hex4 (n : N) (r : str) : n < 0x10000 → unhex4 (hex4 n ++ r) = Some (n, r).
Proof.
  intros Hn. unfold hex4. cbn [map app unhex4].
  rewrite !unhexdigit_hexdigit by apply nibble_bound.
  rewrite (nibbles_sum n Hn). reflexivity.
Qed.

Lemma unescape_quote (r : str) : unescape (dquote :: r) = None.
Proof. reflexivity. Qed.

Lemma unescape_plain (c : N) (r : str) :
  c ≠ dquote → c ≠ backslash → unescape (c :: r) = Some (c, r).
Proof.
  intros Hq Hb. unfold unescape.
  apply N.eqb_neq in Hq, Hb. rewrite Hq, Hb. reflexivity.
Qed.

Lemma unescape_unit (n : N) (r : str) :
  n < 0x10000 → ¬ (0xD800 ≤ n ∧ n ≤ 0xDBFF) →
  unescape (backslash :: 0x75 :: hex4 n ++ r) = Some (n, r).
Proof.
  intros Hn Hs.
  change (unescape (backslash :: 0x75 :: hex4 n ++ r))
    with (match unhex4 (hex4 n ++ r) with
          | None => None
          | Some (n, r'') =>
            if negb ((0xD800 <=? n) && (n <=? 0xDBFF)) then Some (n, r'')
            else match r'' with
            | b :: v :: r3 =>
              if (b =? backslash) && (v =? 0x75) then
                match unhex4 r3 with
                | Some (m, r4) => Some (0x10000 + (n - 0xD800) * 1024 + (m - 0xDC00), r4)
                | None => None
                end
              else None
            | _ => None
            end
          end).
  rewrite (unhex4_hex4 n r Hn).
  replace ((0xD800 <=? n) && (n <=? 0xDBFF)) with false; [reflexivity|].
  symmetry. apply andb_false_iff.
  destruct (N.leb_spec 0xD800 n); [|left; reflexivity].
  right. apply N.leb_gt. lia.
Qed.

Lemma unescape_pair (n m : N) (r : str) :
  0xD800 ≤ n → n ≤ 0xDBFF → m < 0x10000 →
  unescape (backslash :: 0x75 :: hex4 n ++ backslash :: 0x75 :: hex4 m ++ r)
  = Some (0x10000 + (n - 0xD800) * 1024 + (m - 0xDC00), r).
Proof.
  intros Hlo Hhi Hm.
  change (unescape (backslash :: 0x75 :: hex4 n ++ backslash :: 0x75 :: hex4 m ++ r))
    with (match unhex4 (hex4 n ++ backslash :: 0x75 :: hex4 m ++ r) with
          | None => None
          | Some (n, r'') =>
            if negb ((0xD800 <=? n) && (n <=? 0xDBFF)) then Some (n, r'')
            else match r'' with
            | b :: v :: r3 =>
              if (b =? backslash) && (v =? 0x75) then
                match unhex4 r3 with
                | Some (m, r4) => Some (0x10000 + (n - 0xD800) * 1024 + (m - 0xDC00), r4)
                | None => None
                end
              else None
            | _ => None
            end
          end).
  rewrite unhex4_hex4 by lia.
  replace ((0xD800 <=? n) && (n <=? 0xDBFF)) with true
    by (symmetry; apply andb_true_iff; split; apply N.leb_le; assumption).
  cbn [negb]. change ((backslash =? backslash) && (0x75 =? 0x75)) with true. cbv iota.
  rewrite (unhex4_hex4 m r Hm). reflexivity.
Qed.

Lemma high_surrogate_value (c : N) :
  0x10000 ≤ c → c ≤ 0x10FFFF → high_surrogate c = 0xD800 + (c - 0x10000) / 1024.
Proof.
  intros Hlo Hhi. unfold high_surrogate.
  change 0x3FF with (N.ones 10). rewrite N.land_ones, N.shiftr_div_pow2.
  change (2 ^ 10) with 1024.
  assert (Hq : (c - 0x10000) / 1024 < 1024).
  { apply N.Div0.div_lt_upper_bound. lia. }
  rewrite (N.mod_small _ _ Hq).
  change 0xD800 with (54 * 2 ^ 10). apply lor_low. exact Hq.
Qed.

Lemma low_surrogate_value (c : N) :
  low_surrogate c = 0xDC00 + (c - 0x10000) mod 1024.
Proof.
  unfold low_surrogate. change 0x3FF with (N.ones 10). rewrite N.land_ones.
  change (2 ^ 10) with 1024. change 0xDC00 with (55 * 2 ^ 10).
  apply lor_low. apply N.mod_lt. discriminate.
Qed.

Lemma escape_char_astral (c : N) :
  0x10000 ≤ c →
  escape_char c
  = backslash :: 0x75 :: hex4 (high_surrogate c)
    ++ backslash :: 0x75 :: hex4 (low_surrogate c).
Proof.
  intros Hc. unfold escape_char.
  repeat match goal with
  | |- context [c =? ?k] =>
    let H := fresh in destruct (N.eqb_spec c k) as [H|H];
    [vm_compute in H; subst c; vm_compute in Hc; contradiction Hc; reflexivity|]
  end.
  replace ((0x20 <=? c) && (c <=? 0x7E)) with false
    by (symmetry; apply andb_false_iff; right; apply N.leb_gt; lia).
  replace (c <? 0x10000) with false by (symmetry; apply N.ltb_ge; exact Hc).
  reflexivity.
Qed.

Lemma unescape_escape (c : N) (r : str) :
  scalar c → unescape (escape_char c ++ r) = Some (c, r).
Proof.
  intros [Hmax Hsur].
  destruct (N.le_gt_cases 0x10000 c) as [Hbig|Hsmall].
  { replace (escape_char c ++ r)
      with (backslash :: 0x75 :: hex4 (high_surrogate c)
              ++ backslash :: 0x75 :: hex4 (low_surrogate c) ++ r)
      by (rewrite (escape_char_astral c Hbig); reflexivity).
    pose proof (high_surrogate_value c Hbig Hmax) as Hh.
    pose proof (low_surrogate_value c) as Hl.
    assert (Hq : (c - 0x10000) / 1024 < 1024)
      by (apply N.Div0.div_lt_upper_bound; lia).
    assert (Hm : (c - 0x10000) mod 1024 < 1024) by (apply N.mod_lt; discriminate).
    pose proof (N.div_mod (c - 0x10000) 1024 ltac:(discriminate)) as Hdm.
    rewrite Hh, Hl. clear Hh Hl.
    remember ((c - 0x10000) / 1024) as x eqn:Ex.
    remember ((c - 0x10000) mod 1024) as y eqn:Ey. clear Ex Ey.
    rewrite unescape_pair by lia. f_equal. f_equal. lia. }
  unfold escape_char.
  repeat match goal with
  | |- context [c =? ?k] =>
    destruct (N.eqb_spec c k) as [->|?]; [reflexivity|]
  end.
  destruct ((0x20 <=? c) && (c <=? 0x7E)) eqn:Hp.
  { apply unescape_plain; assumption. }
  replace (c <? 0x10000) with true by (symmetry; apply N.ltb_lt; exact Hsmall).
  change ((backslash :: u "u" ++ hex4 c) ++ r)
    with (backslash :: 0x75 :: hex4 c ++ r).
  apply unescape_unit; [exact Hsmall|]. intros [H1 H2]. apply Hsur. lia.
Qed.

Lemma json_body_inj (s s' r r' : str) :
  scalars s → scalars s' → json_body s r = json_body s' r' → s = s' ∧ r = r'.
Proof.
  unfold json_body. intros Hs. revert s'.
  induction Hs as [|c s Hc Hs IH]; intros s' Hs' H.
  - destruct Hs' as [|c' s' Hc' Hs']; cbn [flat_map app] in H.
    + injection H as ->. split; reflexivity.
    + apply (f_equal unescape) in H. rewrite <- !app_assoc in H.
      rewrite unescape_quote, (unescape_escape c' _ Hc') in H. discriminate.
  - destruct Hs' as [|c' s' Hc' Hs']; cbn [flat_map] in H; rewrite <- !app_assoc in H.
    + apply (f_equal unescape) in H. cbn [app] in H.
      rewrite unescape_quote, (unescape_escape c _ Hc) in H. discriminate.
    + pose proof (f_equal unescape H) as Hu.
      rewrite (unescape_escape c _ Hc), (unescape_escape c' _ Hc') in Hu.
      injection Hu as <- Hrest.
      destruct (IH s' Hs') as [-> ->]; [|split; reflexivity].
      rewrite <- !app_assoc. exact Hrest.
Qed.

Lemma hash_text_inj (a a' : Amendment) (p p' : option str) :
  scalar_amendment a → scalar_amendment a' → scalar_parent p → scalar_parent p' →
  hash_text a p = hash_text a' p' → a = a' ∧ p = p'.
Proof.
  destruct a as [c t w ts s], a' as [c' t' w' ts' s'].
  unfold scalar_amendment, hash_text. cbn [content change_type author summary timestamp].
  intros (Hc & Ht & Hw & Hs & Hts) (Hc' & Ht' & Hw' & Hs' & Hts') Hp Hp' H.
  apply app_inv_head in H. apply json_body_inj in H as [-> H]; [|assumption..].
  apply app_inv_head in H. apply json_body_inj in H as [-> H]; [|assumption..].
  apply app_inv_head in H. apply json_body_inj in H as [-> H]; [|assumption..].
  apply app_inv_head in H. apply json_body_inj in H as [-> H]; [|assumption..].
  apply app_inv_head in H. apply json_body_inj in H as [-> H]; [|assumption..].
  apply app_inv_head in H. split; [reflexivity|].
  destruct p as [h|], p' as [h'|]; cbn [parent_tail scalar_parent] in *.
  - injection H as H. apply json_body_inj in H as [-> _]; [reflexivity|assumption..].
  - exfalso. apply (f_equal (fun l => default 0 (head l))) in H.
    vm_compute in H. discriminate.
  - exfalso. apply (f_equal (fun l => default 0 (head l))) in H.
    vm_compute in H. discriminate.
  - reflexivity.
Qed.

Lemma serialised_amendment_equal (a a' : Amendment) (p p' : option str) :
  scalar_amendment a → scalar_amendment a' → scalar_parent p → scalar_parent p' →
  json_dumps (hash_input a p) = json_dumps (hash_input a' p') → a = a'.
Proof.
  intros Ha Ha' Hp Hp'. rewrite !hash_text_dumps. intros H.
  apply (hash_text_inj a a' p p' Ha Ha' Hp Hp' H).
Qed.

(** X10.  The serialisation that is hashed can be read back without
    ambiguity: two nodes whose strings are made of Unicode scalar values
    and whose serialised forms are equal have equal amendments and equal
    parent hashes.  Two different nodes with one hash are therefore a
    collision of SHA-256 itself. *)
Theorem serialised_node_injective (a a' : Amendment) (p p' : option str) :
  scalar_amendment a → scalar_amendment a' → scalar_parent p → scalar_parent p' →
  json_dumps (hash_input a p) = json_dumps (hash_input a' p') →
  a = a' ∧ p = p'.
Proof.
  intros Ha Ha' Hp Hp'. rewrite !hash_text_dumps. apply hash_text_inj; assumption.
Qed.

(** X4.  An altered amendment is found, short of a collision of SHA-256:
    in a chain that verified, after the amendment of node [i] is replaced
    by a different one, [verify_integrity] returns [False] with a hash
    mismatch at node [i], unless the two serialised nodes, which are
    different texts, have the same SHA-256 digest.
    [cls] is what [Config] is bound to when the method runs; a chain
    verifies under the settings class only. *)
Theorem altered_amendment_detected (cls : Config_binding)
    (self : HashChain) (i : nat) (node : ChainNode)
    (a' : Amendment) :
  (verify_integrity cls self).1 = Ok true →
  chain self !! i = Some node →
  a' ≠ amendment node →
  scalar_amendment a' → scalar_amendment (amendment node) →
  scalar_parent (parent_hash node) →
  let tampered := with_chain self (<[i := set_amendment a' node]> (chain self)) in
  verify_integrity cls tampered
  = (Ok false, logged tampered (tampering_record tampered i (u "hash_mismatch")))
  ∨ (json_dumps (hash_input a' (parent_hash node))
     ≠ json_dumps (hash_input (amendment node) (parent_hash node))
     ∧ SHA256.hexdigest (json_dumps (hash_input a' (parent_hash node)))
       = SHA256.hexdigest (json_dumps (hash_input (amendment node) (parent_hash node)))).
Proof.
  intros Hcls. pose proof (verify_integrity_returns _ _ _ Hcls) as ->. revert Hcls.
  intros Hok Hi Hne Ha' Ha Hp tampered.
  apply verify_integrity_true in Hok as [Hsize Hall].
  assert (Hlen : (i < length (chain self))%nat) by (apply lookup_lt_is_Some; eauto).
  destruct (Hall i node Hi) as [Hh _]. apply hash_check_digest in Hh.
  destruct (decide (hash node = entry_digest a' (parent_hash node))) as [E|E].
  - right. split.
    + intros H. apply Hne.
      apply (serialised_amendment_equal a' (amendment node) _ _ Ha' Ha Hp Hp H).
    + unfold entry_digest in *. congruence.
  - left.
    assert (Hbad : ¬ hash_check (set_amendment a' node)).
    { intros H. apply hash_check_digest in H. contradiction. }
    rewrite (verify_integrity_false_at tampered i (set_amendment a' node)).
    + unfold failure_reason. rewrite bool_decide_eq_false_2 by exact Hbad. reflexivity.
    + cbn [tampered with_chain chain]. rewrite length_insert. exact Hsize.
    + cbn [tampered with_chain chain]. apply list_lookup_insert_eq. exact Hlen.
    + intros j m Hj Hm. cbn [tampered with_chain chain] in *.
      rewrite list_lookup_insert_ne in Hm by lia.
      apply (passes_lookup (chain self)); [|apply (Hall j m Hm)].
      apply list_lookup_insert_ne. lia.
    + intros [H _]. contradiction.
Qed.

Lemma surrogate_ranges (c : N) :
  (0xD800 ≤ high_surrogate c ∧ high_surrogate c ≤ 0xDBFF)
  ∧ (0xDC00 ≤ low_surrogate c ∧ low_surrogate c ≤ 0xDFFF).
Proof.
  unfold high_surrogate, low_surrogate.
  change 0x3FF with (N.ones 10). rewrite !N.land_ones.
  pose proof (N.mod_lt (N.shiftr (c - 0x10000) 10) (2 ^ 10) ltac:(discriminate)) as H1.
  pose proof (N.mod_lt (c - 0x10000) (2 ^ 10) ltac:(discriminate)) as H2.
  remember (N.shiftr (c - 0x10000) 10 mod 2 ^ 10) as x.
  remember ((c - 0x10000) mod 2 ^ 10) as y.
  change 0xD800 with (54 * 2 ^ 10). change 0xDC00 with (55 * 2 ^ 10).
  rewrite !lor_low by assumption.
  change (2 ^ 10) with 1024 in *. change 0xDBFF with 56319. change 0xDFFF with 57343.
  lia.
Qed.

Lemma escape_char_surrogate (n : N) :
  0xD800 ≤ n → n ≤ 0xDFFF → escape_char n = backslash :: 0x75 :: hex4 n.
Proof.
  intros Hlo Hhi. unfold escape_char.
  repeat match goal with
  | |- context [n =? ?k] =>
    let H := fresh in destruct (N.eqb_spec n k) as [H|H];
    [vm_compute in H; subst n; vm_compute in Hlo; contradiction Hlo; reflexivity|]
  end.
  replace ((0x20 <=? n) && (n <=? 0x7E)) with false
    by (symmetry; apply andb_false_iff; right; apply N.leb_gt; lia).
  replace (n <? 0x10000) with true by (symmetry; apply N.ltb_lt; lia).
  reflexivity.
Qed.

Lemma escape_surrogate_pair (c : N) :
  0x10000 ≤ c →
  escape_char (high_surrogate c) ++ escape_char (low_surrogate c) = escape_char c.
Proof.
  intros Hc. destruct (surrogate_ranges c) as [[H1 H2] [H3 H4]].
  rewrite (escape_char_astral c Hc).
  rewrite !escape_char_surrogate by lia. reflexivity.
Qed.

Lemma hash_text_content (a : Amendment) (text : str) (p : option str) :
  flat_map escape_char text = flat_map escape_char (content a) →
  hash_text (set_content text a) p = hash_text a p.
Proof.
  intros H. unfold hash_text, json_body.
  cbn [set_content content change_type author summary timestamp]. rewrite H. reflexivity.
Qed.

(** X11.  What the hash does not tell apart: a character above U+FFFF and
    the pair of surrogate code points of its escape are serialised alike.
    In a chain that verified, after such a character in the content of a
    node is replaced by the two surrogates, the amendment is another one
    and [verify_integrity] still returns [True].
    [cls] is what [Config] is bound to when the method runs; a chain
    verifies under the settings class only. *)
Theorem surrogate_pair_undetected (cls : Config_binding)
    (self : HashChain) (i : nat) (node : ChainNode)
    (before after : str) (c : N) :
  (verify_integrity cls self).1 = Ok true →
  chain self !! i = Some node →
  0x10000 ≤ c →
  content (amendment node) = before ++ c :: after →
  let a' := set_content (before ++ high_surrogate c :: low_surrogate c :: after)
                        (amendment node) in
  a' ≠ amendment node
  ∧ (verify_integrity cls
       (with_chain self (<[i := set_amendment a' node]> (chain self)))).1 = Ok true.
Proof.
  intros Hcls. pose proof (verify_integrity_returns _ _ _ Hcls) as ->. revert Hcls.
  intros Hok Hi Hc Hcontent a'. split.
  { intros H. apply (f_equal content) in H. cbn [a' set_content content] in H.
    rewrite Hcontent in H. apply (f_equal length) in H.
    rewrite !length_app in H. cbn [length] in H. lia. }
  apply verify_integrity_true in Hok as [Hsize Hall].
  assert (Hlen : (i < length (chain self))%nat) by (apply lookup_lt_is_Some; eauto).
  assert (Hsame : entry_digest a' (parent_hash node)
                  = entry_digest (amendment node) (parent_hash node)).
  { unfold entry_digest. rewrite !hash_text_dumps. f_equal.
    apply hash_text_content. rewrite Hcontent, !flat_map_app. f_equal.
    cbn [flat_map]. rewrite app_assoc, (escape_surrogate_pair c Hc). reflexivity. }
  apply verify_integrity_true. cbn [with_chain chain]. split.
  { rewrite length_insert. exact Hsize. }
  assert (Hhash : ∀ j m, <[i := set_amendment a' node]> (chain self) !! j = Some m →
            ∃ m', chain self !! j = Some m' ∧ hash m = hash m'
                  ∧ parent_hash m = parent_hash m' ∧ (hash_check m' → hash_check m)).
  { intros j m Hm. destruct (decide (j = i)) as [->|Hji].
    - rewrite list_lookup_insert_eq in Hm by exact Hlen. injection Hm as <-.
      exists node. split; [exact Hi|]. split; [reflexivity|]. split; [reflexivity|].
      rewrite !hash_check_digest. cbn [set_amendment hash amendment parent_hash].
      rewrite Hsame. tauto.
    - rewrite list_lookup_insert_ne in Hm by lia. exists m. tauto. }
  intros j m Hm. destruct (Hhash j m Hm) as (m' & Hm' & _ & Hpar & Hcheck).
  destruct (Hall j m' Hm') as [Hh Hl]. split; [apply Hcheck, Hh|].
  intros prev Hpos Hprev. destruct (Hhash _ prev Hprev) as (prev' & Hprev' & Hph & _).
  rewrite Hpar, Hph. apply (Hl prev' Hpos Hprev').
Qed.

Lemma serialised_node_injective_witness :
  example_amendment (u "A") (u "Alice") = example_amendment ([65]) (u "Alice")
  ∧ (None : option str) = None.
Proof.
  apply (serialised_node_injective
           (example_amendment (u "A") (u "Alice")) (example_amendment [65] (u "Alice"))
           None None).
  - apply (bool_decide_unpack (scalar_amendment _)). vm_compute. exact I.
  - apply (bool_decide_unpack (scalar_amendment _)). vm_compute. exact I.
  - apply (bool_decide_unpack (scalar_parent _)). vm_compute. exact I.
  - apply (bool_decide_unpack (scalar_parent _)). vm_compute. exact I.
  - vm_compute. reflexivity.
Defined.

Lemma altered_amendment_detected_witness :
  let altered := example_amendment (u "TAMPERED CONTENT") (u "Bob") in
  let tampered :=
    with_chain example_ledger
      (<[1%nat := set_amendment altered (example_node 1)]> (chain example_ledger)) in
  verify_integrity Config_settings tampered
  = (Ok false, logged tampered (tampering_record tampered 1 (u "hash_mismatch")))
  ∨ (json_dumps (hash_input altered (parent_hash (example_node 1)))
     ≠ json_dumps (hash_input (amendment (example_node 1)) (parent_hash (example_node 1)))
     ∧ SHA256.hexdigest (json_dumps (hash_input altered (parent_hash (example_node 1))))
       = SHA256.hexdigest
           (json_dumps (hash_input (amendment (example_node 1))
                          (parent_hash (example_node 1))))).
Proof.
  apply (altered_amendment_detected Config_settings example_ledger 1 (example_node 1)
           (example_amendment (u "TAMPERED CONTENT") (u "Bob"))).
  - vm_compute. reflexivity.
  - vm_compute. reflexivity.
  - vm_compute. discriminate.
  - apply (bool_decide_unpack (scalar_amendment _)). vm_compute. exact I.
  - apply (bool_decide_unpack (scalar_amendment _)). vm_compute. exact I.
  - apply (bool_decide_unpack (scalar_parent _)). vm_compute. exact I.
Defined.

Lemma surrogate_pair_undetected_witness :
  let node := default (example_node 0) (chain astral_ledger !! 0%nat) in
  let a' := set_content (u "Art. 1 " ++ [0xD83D; 0xDE00]) (amendment node) in
  a' ≠ amendment node
  ∧ (verify_integrity Config_settings
       (with_chain astral_ledger
          (<[0%nat := set_amendment a' node]> (chain astral_ledger)))).1 = Ok true.
Proof.
  apply (surrogate_pair_undetected Config_settings astral_ledger 0
           (default (example_node 0) (chain astral_ledger !! 0%nat))
           (u "Art. 1 ") [] 0x1F600).
  - vm_compute. reflexivity.
  - vm_compute. reflexivity.
  - vm_compute. discriminate.
  - vm_compute. reflexivity.
Defined.

(** ** The rate limiter *)

Section RateLimiter_properties.

Context {time : Type} (within : time → time → Z → bool).

Lemma is_allowed_settings (self : RateLimiter time) (now : time) (client_id : str) :
  max_requests (is_allowed within self now client_id).2 = max_requests self
  ∧ window_sec (is_allowed within self now client_id).2 = window_sec self.
Proof. unfold is_allowed. cbv zeta. case_bool_decide; split; reflexivity. Qed.

Lemma is_allowed_other (self : RateLimiter time) (now : time) (client_id other : str) :
  other ≠ client_id →
  remembered (is_allowed within self now client_id).2 other = remembered self other.
Proof.
  intros Hne. unfold remembered, is_allowed. cbv zeta.
  case_bool_decide; cbn [snd requests];
    rewrite ?(lookup_insert_ne _ client_id other) by congruence;
    destruct (requests self !! client_id);
    rewrite ?(lookup_insert_ne _ client_id other) by congruence; reflexivity.
Qed.

Lemma is_allowed_same (self : RateLimiter time) (now : time) (client_id : str) :
  let kept := List.filter (fun t => within now t (window_sec self))
                          (remembered self client_id) in
  is_allowed within self now client_id
  = (bool_decide (Z.of_nat (length kept) < max_requests self)%Z,
     (is_allowed within self now client_id).2)
  ∧ remembered (is_allowed within self now client_id).2 client_id
    = if bool_decide (Z.of_nat (length kept) < max_requests self)%Z
      then kept ++ [now] else kept.
Proof.
  intros kept. unfold is_allowed, remembered in *. cbv zeta.
  assert (Hl : default [] (match requests self !! client_id with
                           | Some _ => requests self
                           | None => <[client_id := []]> (requests self)
                           end !! client_id)
               = default [] (requests self !! client_id)).
  { destruct (requests self !! client_id) eqn:E; [rewrite E; reflexivity|].
    rewrite lookup_insert_eq. reflexivity. }
  rewrite Hl. fold kept.
  case_bool_decide as H.
  - rewrite (bool_decide_eq_false_2 (Z.of_nat (length kept) < _)%Z) by lia.
    cbn [snd requests]. rewrite lookup_insert_eq. split; reflexivity.
  - rewrite (bool_decide_eq_true_2 (Z.of_nat (length kept) < _)%Z) by lia.
    cbn [snd requests]. rewrite lookup_insert_eq. split; reflexivity.
Qed.

Lemma filter_all {A : Type} (f : A → bool) (l : list A) :
  (∀ x, x ∈ l → f x = true) → List.filter f l = l.
Proof.
  induction l as [|x l IH]; intros H; [reflexivity|].
  cbn [List.filter]. rewrite (H x) by (left). rewrite IH; [reflexivity|].
  intros y Hy. apply H. right. exact Hy.
Qed.

Lemma serve_burst (client_id : str) (calls : list (str * time)) (self : RateLimiter time) :
  let times := map snd (calls_of client_id calls) in
  (∀ t tj, t ∈ remembered self client_id → tj ∈ times →
     within tj t (window_sec self) = true) →
  (∀ i j ti tj, (i < j)%nat → times !! i = Some ti → times !! j = Some tj →
     within tj ti (window_sec self) = true) →
  let room := (Z.to_nat (max_requests self) - length (remembered self client_id))%nat in
  answers_to client_id calls (serve within calls self).1
  = repeat true (length times `min` room) ++ repeat false (length times - room).
Proof.
  revert self. induction calls as [|[c now] rest IH]; intros self times Hold Hnew room.
  { reflexivity. }
  cbn [serve]. destruct (is_allowed within self now c) as [answer self'] eqn:Hstep.
  destruct (serve within rest self') as [answers self''] eqn:Hrest.
  pose proof (is_allowed_settings self now c) as [Hmax Hwin].
  rewrite Hstep in Hmax, Hwin. cbn [snd] in Hmax, Hwin.
  unfold answers_to. cbn [zip zip_with List.filter fst snd].
  unfold times, calls_of in *. cbn [List.filter fst] in *.
  destruct (decide (c = client_id)) as [->|Hne].
  - rewrite bool_decide_eq_true_2 in * by reflexivity. cbn [map snd length] in *.
    pose proof (is_allowed_same self now client_id) as [Hans Hrem].
    cbv zeta in Hans, Hrem. rewrite Hstep in Hans, Hrem. cbn [snd] in Hrem.
    rewrite (filter_all _ (remembered self client_id)) in Hans, Hrem
      by (intros t Ht; apply (Hold t now Ht); left).
    apply (f_equal fst) in Hans. cbn [fst] in Hans.
    specialize (IH self'). rewrite Hrest in IH. cbn [fst] in IH.
    fold (answers_to client_id rest answers). rewrite Hwin, Hmax in IH.
    rewrite IH; clear IH.
    + rewrite Hrem, Hans. unfold room. case_bool_decide as Hroom.
      * rewrite length_app. cbn [length].
        replace (S (length (map snd (List.filter
                   (λ call, bool_decide (call.1 = client_id)) rest)))
                 `min` (Z.to_nat (max_requests self) - length (remembered self client_id)))%nat
          with (S (length (map snd (List.filter
                   (λ call, bool_decide (call.1 = client_id)) rest))
                 `min` (Z.to_nat (max_requests self)
                        - (length (remembered self client_id) + 1))))%nat by lia.
        cbn [repeat app]. f_equal. f_equal. f_equal. lia.
      * replace (Z.to_nat (max_requests self) - length (remembered self client_id))%nat
          with 0%nat by lia.
        rewrite !Nat.min_0_r, !Nat.sub_0_r. reflexivity.
    + intros t tj Ht Htj. rewrite Hrem in Ht. case_bool_decide.
      * apply elem_of_app in Ht as [Ht|Ht].
        -- apply (Hold t tj Ht). right. exact Htj.
        -- apply list_elem_of_singleton in Ht as ->.
           apply list_elem_of_lookup in Htj as [j Hj].
           apply (Hnew 0%nat (S j)); [lia|reflexivity|exact Hj].
      * apply (Hold t tj Ht). right. exact Htj.
    + intros i j ti tj Hij Hi Hj. apply (Hnew (S i) (S j)); [lia|exact Hi|exact Hj].
  - rewrite bool_decide_eq_false_2 in * by exact Hne.
    fold (answers_to client_id rest answers).
    specialize (IH self'). rewrite Hrest in IH. cbn [fst] in IH.
    assert (Hrem : remembered self' client_id = remembered self client_id).
    { pose proof (is_allowed_other self now c client_id ltac:(congruence)) as H.
      rewrite Hstep in H. exact H. }
    rewrite Hwin, Hmax, Hrem in IH. apply IH; assumption.
Qed.

(** X14.  The limit within one window: when all the calls of a client fall
    in one window (each earlier call is still within the window at every
    later one), a new limiter allows the first [max_requests] of them and
    refuses all the others, whatever other clients do in between. *)
Theorem rate_limit_enforced (max window : Z) (client_id : str)
    (calls : list (str * time)) :
  let times := map snd (calls_of client_id calls) in
  (∀ i j ti tj, (i < j)%nat → times !! i = Some ti → times !! j = Some tj →
     within tj ti window = true) →
  answers_to client_id calls (serve within calls (RateLimiter_init max window)).1
  = repeat true (length times `min` Z.to_nat max)
    ++ repeat false (length times - Z.to_nat max).
Proof.
  intros times H.
  pose proof (serve_burst client_id calls (RateLimiter_init max window)) as Hb.
  cbv zeta in Hb. unfold remembered in Hb. cbn [RateLimiter_init requests] in Hb.
  rewrite lookup_empty in Hb. cbn [default length max_requests window_sec] in Hb.
  rewrite Nat.sub_0_r in Hb. apply Hb.
  - intros t tj Ht. apply elem_of_nil in Ht. contradiction.
  - exact H.
Qed.

Lemma serve_independent (client_id : str) (calls : list (str * time))
    (self other : RateLimiter time) :
  max_requests self = max_requests other →
  window_sec self = window_sec other →
  remembered self client_id = remembered other client_id →
  answers_to client_id calls (serve within calls self).1
  = (serve within (calls_of client_id calls) other).1.
Proof.
  revert self other. induction calls as [|[c now] rest IH]; intros self other Hm Hw Hr.
  { reflexivity. }
  cbn [serve]. destruct (is_allowed within self now c) as [answer self'] eqn:Hstep.
  destruct (serve within rest self') as [answers self''] eqn:Hrest.
  pose proof (is_allowed_settings self now c) as [Hmax Hwin].
  rewrite Hstep in Hmax, Hwin. cbn [snd] in Hmax, Hwin.
  unfold answers_to, calls_of. cbn [zip zip_with List.filter fst snd].
  destruct (decide (c = client_id)) as [->|Hne].
  - rewrite !bool_decide_eq_true_2 by reflexivity. cbn [map snd serve].
    destruct (is_allowed within other now client_id) as [answer' other'] eqn:Hstep'.
    pose proof (is_allowed_settings other now client_id) as [Hmax' Hwin'].
    rewrite Hstep' in Hmax', Hwin'. cbn [snd] in Hmax', Hwin'.
    pose proof (is_allowed_same self now client_id) as [Hans Hrem].
    pose proof (is_allowed_same other now client_id) as [Hans' Hrem'].
    cbv zeta in Hans, Hrem, Hans', Hrem'.
    rewrite Hstep in Hans, Hrem. rewrite Hstep' in Hans', Hrem'.
    cbn [snd] in Hrem, Hrem'. apply (f_equal fst) in Hans, Hans'. cbn [fst] in Hans, Hans'.
    rewrite <- Hr, <- Hm, <- Hw in Hans', Hrem'.
    specialize (IH self' other'). rewrite Hrest in IH. cbn [fst] in IH.
    fold (answers_to client_id rest answers). fold (calls_of client_id rest).
    destruct (serve within (calls_of client_id rest) other') as [answers' other''] eqn:Hrest'.
    cbn [fst] in *. f_equal; [congruence|]. apply IH; congruence.
  - rewrite !bool_decide_eq_false_2 by exact Hne.
    fold (answers_to client_id rest answers). fold (calls_of client_id rest).
    specialize (IH self' other). rewrite Hrest in IH. cbn [fst] in IH.
    apply IH; [congruence|congruence|].
    pose proof (is_allowed_other self now c client_id ltac:(congruence)) as H.
    rewrite Hstep in H. cbn [snd] in H. congruence.
Qed.

(** X15.  Clients do not share a quota: the answers a client gets are the
    ones it would get if no other client had called at all. *)
Theorem clients_independent (max window : Z) (client_id : str)
    (calls : list (str * time)) :
  answers_to client_id calls (serve within calls (RateLimiter_init max window)).1
  = (serve within (calls_of client_id calls) (RateLimiter_init max window)).1.
Proof. apply serve_independent; reflexivity. Qed.

End RateLimiter_properties.

Lemma rate_limit_enforced_witness :
  answers_to (u "client1") example_calls
             (serve within_seconds example_calls (RateLimiter_init 3 60)).1
  = [true; true; true; false].
Proof.
  apply (rate_limit_enforced within_seconds 3 60 (u "client1") example_calls).
  intros i j ti tj Hij Hi Hj.
  assert (Hrange : ∀ k t, map snd (calls_of (u "client1") example_calls) !! k = Some t →
                          (0 ≤ t ≤ 3)%Z).
  { intros [|[|[|[|k]]]] t H; vm_compute in H; try discriminate;
      injection H as <-; lia. }
  apply Hrange in Hi, Hj. unfold within_seconds. apply bool_decide_eq_true_2. lia.
Defined.

(** ** The comparison of two versions *)

Example str_split_lines :
  str_split newline (u "a" ++ [newline] ++ u "b" ++ [newline])
  = [u "a"; u "b"; []].
Proof. reflexivity. Qed.

Lemma str_split_cons (sep : N) (s : str) :
  ∃ piece pieces, str_split sep s = piece :: pieces.
Proof.
  destruct s as [|c rest]; cbn [str_split]; [eauto|].
  destruct (c =? sep); [eauto|]. destruct (str_split sep rest); eauto.
Qed.

Lemma str_split_app (sep : N) (s r : str) :
  str_split sep (s ++ sep :: r) = str_split sep s ++ str_split sep r.
Proof.
  induction s as [|c s IH]; cbn [app str_split].
  - rewrite N.eqb_refl. reflexivity.
  - destruct (c =? sep); [rewrite IH; reflexivity|].
    rewrite IH. destruct (str_split_cons sep s) as (piece & pieces & ->). reflexivity.
Qed.

(** X16.  [compare_amendments] reports no change exactly when the two texts
    have the same set of lines: [total_changes] is 0 if and only if every
    line of one text occurs in the other.  How often and where a line
    occurs plays no part. *)
Theorem no_changes_iff_same_lines (old_content new_content : str) :
  total_changes (compare_amendments old_content new_content) = 0%nat
  ↔ ∀ line : str, line ∈ str_split newline old_content
                  ↔ line ∈ str_split newline new_content.
Proof.
  unfold compare_amendments. cbn [total_changes].
  set (old := str_split newline old_content).
  set (new := str_split newline new_content). split.
  - intros H line.
    assert (H1 : size ((list_to_set new : gset str) ∖ list_to_set old) = 0%nat) by lia.
    assert (H2 : size ((list_to_set old : gset str) ∖ list_to_set new) = 0%nat) by lia.
    apply size_empty_iff in H1, H2. rewrite elem_of_equiv_empty in H1, H2.
    split; intros Hin.
    + destruct (decide (line ∈ new)) as [|Hn]; [assumption|]. exfalso.
      apply (H2 line), elem_of_difference. rewrite !elem_of_list_to_set. tauto.
    + destruct (decide (line ∈ old)) as [|Hn]; [assumption|]. exfalso.
      apply (H1 line), elem_of_difference. rewrite !elem_of_list_to_set. tauto.
  - intros H.
    assert (H1 : (list_to_set new : gset str) ∖ list_to_set old ≡ ∅).
    { apply elem_of_equiv_empty. intros line Hin. apply elem_of_difference in Hin.
      rewrite !elem_of_list_to_set in Hin. apply Hin, H, Hin. }
    assert (H2 : (list_to_set old : gset str) ∖ list_to_set new ≡ ∅).
    { apply elem_of_equiv_empty. intros line Hin. apply elem_of_difference in Hin.
      rewrite !elem_of_list_to_set in Hin. apply Hin, H, Hin. }
    apply size_empty_iff in H1, H2. lia.
Qed.

(** X17.  Moving text is not a change for [compare_amendments]: when two
    blocks of lines change places, nothing is reported as added or
    removed and [total_changes] is 0. *)
Theorem moved_lines_not_reported (first second : str) :
  let old_content := first ++ newline :: second in
  let new_content := second ++ newline :: first in
  compare_amendments old_content new_content
  = {| added_lines := ∅; removed_lines := ∅; total_changes := 0 |}.
Proof.
  intros old_content new_content. unfold compare_amendments, old_content, new_content.
  rewrite !str_split_app, !list_to_set_app_L.
  set (a := list_to_set (str_split newline first) : gset str).
  set (b := list_to_set (str_split newline second) : gset str).
  assert (H1 : (b ∪ a) ∖ (a ∪ b) = ∅).
  { apply leibniz_equiv, elem_of_equiv_empty. intros x Hx.
    apply elem_of_difference in Hx as [Hx Hn]. apply Hn.
    apply elem_of_union in Hx. apply elem_of_union. tauto. }
  assert (H2 : (a ∪ b) ∖ (b ∪ a) = ∅).
  { apply leibniz_equiv, elem_of_equiv_empty. intros x Hx.
    apply elem_of_difference in Hx as [Hx Hn]. apply Hn.
    apply elem_of_union in Hx. apply elem_of_union. tauto. }
  rewrite H1, H2, size_empty. reflexivity.
Qed.

(** ** The endpoints *)

Lemma row_amendment (i : nat) (node : ChainNode) :
  getitem (history_row i node) (u "amendment") = Some (to_dict (amendment node)).
Proof. reflexivity. Qed.

Lemma row_version (i : nat) (node : ChainNode) :
  getitem (history_row i node) (u "version") = Some (VInt (Z.of_nat i + 1)).
Proof. reflexivity. Qed.

Lemma row_response (i : nat) (node : ChainNode) :
  app.AmendmentResponse_of (history_row i node) = Some (response_of_node i node).
Proof. destruct node as [a [p|] h]; reflexivity. Qed.

Lemma amendment_change_type (a : Amendment) :
  getitem (to_dict a) (u "change_type") = Some (VStr (change_type a)).
Proof. reflexivity. Qed.

Lemma amendment_author (a : Amendment) :
  getitem (to_dict a) (u "author") = Some (VStr (author a)).
Proof. reflexivity. Qed.

Lemma slice_page {A : Type} (l : list A) (start len : Z) :
  (0 ≤ start)%Z → (0 ≤ len)%Z →
  slice l start (start + len) = take (Z.to_nat len) (drop (Z.to_nat start) l).
Proof.
  intros Hs Hl. unfold slice, slice_index. cbv zeta.
  destruct (Z.ltb_spec start 0) as [?|_]; [lia|].
  destruct (Z.ltb_spec (start + len) 0) as [?|_]; [lia|].
  destruct (Z.le_gt_cases (Z.of_nat (length l)) start) as [Hbig|Hsmall].
  - rewrite (drop_ge l (Z.to_nat start)) by lia.
    rewrite (drop_ge l (Z.to_nat (start `min` Z.of_nat (length l)))) by lia.
    rewrite !take_nil. reflexivity.
  - replace (start `min` Z.of_nat (length l))%Z with start by lia.
    destruct (Z.le_gt_cases (start + len) (Z.of_nat (length l))) as [Hin|Hout].
    + f_equal. lia.
    + rewrite (take_ge _ (Z.to_nat len)) by (rewrite length_drop; lia).
      apply take_ge. rewrite length_drop. lia.
Qed.

Lemma pages_concat {A : Type} (l : list A) (len pages : nat) :
  concat (map (fun k => take len (drop (k * len) l)) (seq 0 pages))
  = take (pages * len) l.
Proof.
  induction pages as [|p IH]; [reflexivity|].
  rewrite seq_S, map_app, concat_app, IH. cbn [map concat plus].
  rewrite app_nil_r, take_take_drop. f_equal. lia.
Qed.

(** X18.  The pages of [GET /amendments] cover the history: for a positive
    [limit], the pages at [skip] = 0, [limit], 2 [limit], ..., put one
    after the other, are the rows of [get_history] in their order, each
    row once, and every page has at most [limit] rows. *)
Theorem pages_cover (c : HashChain) (limit : Z) (pages : nat) :
  (0 < limit)%Z →
  (Z.of_nat (length (chain c)) ≤ Z.of_nat pages * limit)%Z →
  concat (map (fun k => page_rows (api.list_amendments (Some c) (Z.of_nat k * limit) limit))
              (seq 0 pages))
  = imap history_row (chain c)
  ∧ ∀ k : nat,
      (Z.of_nat (length (page_rows
         (api.list_amendments (Some c) (Z.of_nat k * limit) limit))) ≤ limit)%Z.
Proof.
  intros Hl Hp. unfold api.list_amendments. rewrite get_history_run. cbn [fst page_rows].
  set (history := imap history_row (chain c)).
  assert (Hpage : ∀ k : nat, slice history (Z.of_nat k * limit) (Z.of_nat k * limit + limit)
                  = take (Z.to_nat limit) (drop (k * Z.to_nat limit) history)).
  { intros k. rewrite slice_page by lia. do 2 f_equal. lia. }
  split.
  - rewrite (map_ext _ (fun k => take (Z.to_nat limit) (drop (k * Z.to_nat limit) history)))
      by exact Hpage.
    rewrite pages_concat. apply take_ge. unfold history. rewrite length_imap. nia.
  - intros k. rewrite Hpage, length_take. lia.
Qed.

Lemma pages_cover_witness :
  concat (map (fun k => page_rows (api.list_amendments (Some example_ledger)
                                     (Z.of_nat k * 2) 2)) (seq 0 2))
  = imap history_row (chain example_ledger)
  ∧ ∀ k : nat,
      (Z.of_nat (length (page_rows
         (api.list_amendments (Some example_ledger) (Z.of_nat k * 2) 2))) ≤ 2)%Z.
Proof.
  apply (pages_cover example_ledger 2 2).
  - lia.
  - vm_compute. discriminate.
Defined.

Lemma count_type_rows (t : str) (nodes : list ChainNode) (f : nat → ChainNode → pyval) :
  (∀ i node, getitem (f i node) (u "amendment") = Some (to_dict (amendment node))) →
  count_type t (imap f nodes) = Some (Z.of_nat (length (of_type t nodes))).
Proof.
  revert f. induction nodes as [|node rest IH]; intros f Hf; [reflexivity|].
  cbn [imap count_type]. rewrite Hf. cbn [mbind option_bind].
  rewrite amendment_change_type. cbn [mbind option_bind].
  rewrite (IH (f ∘ S)) by (intros i n; apply Hf). cbn [mbind option_bind].
  unfold of_type. cbn [List.filter equals_str].
  fold (of_type t rest). destruct (str_eqb (change_type (amendment node)) t).
  - cbn [length]. f_equal. lia.
  - reflexivity.
Qed.

Lemma of_type_disjoint (nodes : list ChainNode) :
  (length (of_type (u "substantive") nodes) + length (of_type (u "editorial") nodes)
   ≤ length nodes)%nat
  ∧ ((length (of_type (u "substantive") nodes) + length (of_type (u "editorial") nodes))%nat
     = length nodes
     ↔ Forall (fun node => valid_type (change_type (amendment node))) nodes).
Proof.
  induction nodes as [|node rest [IHle IHeq]].
  { split; [reflexivity|]. split; [constructor|reflexivity]. }
  unfold of_type, str_eqb in *. cbn [List.filter length].
  rewrite Forall_cons. unfold valid_type at 1.
  destruct (decide (change_type (amendment node) = u "substantive")) as [E|E].
  - rewrite (bool_decide_eq_true_2 _ E).
    rewrite bool_decide_eq_false_2 by (rewrite E; vm_compute; discriminate).
    cbn [length]. split; [lia|]. rewrite <- IHeq. split; [intros; split; [tauto|lia]|lia].
  - rewrite (bool_decide_eq_false_2 _ E).
    destruct (decide (change_type (amendment node) = u "editorial")) as [E'|E'].
    + rewrite (bool_decide_eq_true_2 _ E'). cbn [length]. split; [lia|].
      rewrite <- IHeq. split; [intros; split; [tauto|lia]|lia].
    + rewrite (bool_decide_eq_false_2 _ E'). cbn [length]. split; [lia|].
      split; [lia|tauto].
Qed.

(** X19.  [GET /statistics] always answers for a loaded chain, and its two
    counts never exceed the total; they add up to the total exactly when
    every amendment of the chain has one of the two valid types, as those
    built by the constructor of [Amendment] have. *)
Theorem statistics_add_up (c : HashChain) :
  ∃ body : api.statistics_body,
    api.statistics (Some c) = Return body
    ∧ api.total body = Z.of_nat (length (chain c))
    ∧ (api.substantive body + api.editorial body ≤ api.total body)%Z
    ∧ ((api.substantive body + api.editorial body)%Z = api.total body
       ↔ Forall (fun node => valid_type (change_type (amendment node))) (chain c)).
Proof.
  unfold api.statistics. rewrite get_history_run. cbn [fst].
  rewrite !count_type_rows by apply row_amendment.
  eexists. split; [reflexivity|]. cbn [api.total api.substantive api.editorial].
  rewrite length_imap. destruct (of_type_disjoint (chain c)) as [Hle Heq].
  split; [reflexivity|]. split; [lia|]. rewrite <- Heq. lia.
Qed.

Lemma find_version_rows (nodes : list ChainNode) (f : nat → ChainNode → pyval)
    (k : nat) (version : Z) :
  (∀ i node, f i node = history_row (k + i) node) →
  app.find_version version (imap f nodes)
  = match nodes !! Z.to_nat (version - Z.of_nat k - 1) with
    | Some node =>
      if bool_decide (Z.of_nat k + 1 ≤ version)%Z
      then Return (response_of_node (Z.to_nat (version - 1)) node)
      else not_found version
    | None => not_found version
    end.
Proof.
  revert f k. induction nodes as [|node rest IH]; intros f k Hf.
  { reflexivity. }
  cbn [imap app.find_version]. rewrite Hf, Nat.add_0_r, row_version. cbn [equals_int].
  case_bool_decide as Hv.
  - rewrite row_response. replace (Z.to_nat (version - Z.of_nat k - 1)) with 0%nat by lia.
    cbn [lookup list_lookup]. rewrite bool_decide_eq_true_2 by lia.
    do 2 f_equal. lia.
  - rewrite (IH (f ∘ S) (S k)) by (intros i n; unfold compose; rewrite Hf; f_equal; lia).
    destruct (decide (Z.of_nat k + 1 ≤ version)%Z) as [Hle|Hgt].
    + replace (Z.to_nat (version - Z.of_nat k - 1))
        with (S (Z.to_nat (version - Z.of_nat (S k) - 1))) by lia.
      cbn [lookup list_lookup]. destruct (rest !! _); [|reflexivity].
      rewrite !bool_decide_eq_true_2 by lia. reflexivity.
    + destruct (rest !! _);
        [rewrite bool_decide_eq_false_2 by lia|]; destruct (_ !! _);
        rewrite ?bool_decide_eq_false_2 by lia; reflexivity.
Qed.

(** X20.  [GET /amendments/{version}] numbers the entries from 1: for a
    loaded chain of [n] entries it returns the fields of the node at
    index [version - 1] when [1 <= version <= n], and raises the 404
    [Amendment <version> not found] for every other integer. *)
Theorem get_amendment_by_version (c : HashChain) (version : Z) :
  (∀ node, (1 ≤ version)%Z → chain c !! Z.to_nat (version - 1) = Some node →
     app.get_amendment (Some c) version
     = Return (response_of_node (Z.to_nat (version - 1)) node))
  ∧ ((version < 1 ∨ Z.of_nat (length (chain c)) < version)%Z →
     app.get_amendment (Some c) version = not_found version).
Proof.
  unfold app.get_amendment. rewrite get_history_run. cbn [fst].
  rewrite (find_version_rows (chain c) history_row 0 version) by reflexivity.
  change (Z.of_nat 0) with 0%Z. rewrite Z.sub_0_r. split.
  - intros node Hv ->. rewrite bool_decide_eq_true_2 by lia. reflexivity.
  - intros [Hv|Hv].
    + destruct (_ !! _); [rewrite bool_decide_eq_false_2 by lia|]; reflexivity.
    + rewrite lookup_ge_None_2 by lia. reflexivity.
Qed.

Lemma dict_get_set (d : list (str * Z)) (key key' : str) (value otherwise : Z) :
  app.dict_get (app.dict_set d key value) key' otherwise
  = if str_eqb key key' then value else app.dict_get d key' otherwise.
Proof.
  unfold str_eqb. induction d as [|[k v] rest IH]; cbn [app.dict_set app.dict_get].
  - unfold str_eqb. reflexivity.
  - unfold str_eqb in *. destruct (decide (k = key)) as [->|Hk].
    + rewrite (bool_decide_eq_true_2 (key = key)) by reflexivity.
      cbn [app.dict_get]. unfold str_eqb. destruct (bool_decide (key = key')); reflexivity.
    + rewrite (bool_decide_eq_false_2 (k = key)) by exact Hk.
      cbn [app.dict_get]. unfold str_eqb. rewrite IH.
      case_bool_decide as Hk'; [|reflexivity].
      rewrite bool_decide_eq_false_2 by congruence. reflexivity.
Qed.

Lemma sum_values_set (d : list (str * Z)) (key : str) :
  sum_values (app.dict_set d key (app.dict_get d key 0 + 1)) = (sum_values d + 1)%Z.
Proof.
  unfold sum_values. induction d as [|[k v] rest IH]; cbn [app.dict_set app.dict_get].
  - cbn. lia.
  - destruct (str_eqb k key); cbn [map snd foldr] in *; [lia|]. rewrite IH. lia.
Qed.

Lemma keys_set (d : list (str * Z)) (key : str) (value : Z) :
  NoDup (map fst d) → NoDup (map fst (app.dict_set d key value)).
Proof.
  intros Hd.
  assert (Hkeys : map fst (app.dict_set d key value)
                  = if bool_decide (key ∈ map fst d) then map fst d
                    else map fst d ++ [key]).
  { clear Hd. induction d as [|[k v] rest IH]; cbn [app.dict_set map fst].
    - rewrite bool_decide_eq_false_2 by apply not_elem_of_nil. reflexivity.
    - unfold str_eqb. destruct (decide (k = key)) as [->|Hk].
      + rewrite bool_decide_eq_true_2 by reflexivity.
        rewrite bool_decide_eq_true_2 by left. reflexivity.
      + rewrite (bool_decide_eq_false_2 (k = key)) by exact Hk.
        cbn [map fst]. rewrite IH. case_bool_decide as Hin.
        * rewrite bool_decide_eq_true_2 by (right; exact Hin). reflexivity.
        * rewrite bool_decide_eq_false_2; [reflexivity|].
          intros H. apply elem_of_cons in H as [H|H]; [congruence|contradiction]. }
  rewrite Hkeys. case_bool_decide as Hin; [exact Hd|].
  apply NoDup_app. split; [exact Hd|]. split.
  - intros x Hx Hx'. apply list_elem_of_singleton in Hx' as ->. contradiction.
  - apply NoDup_singleton.
Qed.

Lemma count_authors_rows (nodes : list ChainNode) (f : nat → ChainNode → pyval)
    (d : list (str * Z)) :
  (∀ i node, getitem (f i node) (u "amendment") = Some (to_dict (amendment node))) →
  NoDup (map fst d) →
  ∃ authors,
    app.count_authors d (imap f nodes) = Some authors
    ∧ (∀ name, app.dict_get authors name 0
               = (app.dict_get d name 0 + Z.of_nat (length (written_by name nodes)))%Z)
    ∧ NoDup (map fst authors)
    ∧ sum_values authors = (sum_values d + Z.of_nat (length nodes))%Z.
Proof.
  revert f d. induction nodes as [|node rest IH]; intros f d Hf Hd.
  { exists d. cbn. repeat split; [intros; lia|exact Hd|lia]. }
  cbn [imap app.count_authors]. rewrite Hf. cbn [mbind option_bind].
  rewrite amendment_author. cbn [mbind option_bind app.as_str].
  set (name := author (amendment node)).
  destruct (IH (f ∘ S) (app.dict_set d name (app.dict_get d name 0 + 1)))
    as (authors & Hrun & Hget & Hkeys & Hsum).
  { intros i n. apply Hf. }
  { apply keys_set, Hd. }
  exists authors. split; [exact Hrun|]. split; [|split; [exact Hkeys|]].
  - intros who. rewrite Hget, dict_get_set. unfold written_by. cbn [List.filter].
    fold name. fold (written_by who rest). unfold str_eqb.
    case_bool_decide as E; [rewrite E|]; cbn [length]; lia.
  - rewrite Hsum, sum_values_set. cbn [length]. lia.
Qed.

(** X21.  The authors' counts of [GET /statistics] are exact: for a loaded
    chain the endpoint answers, every author is listed once, the count of
    an author is the number of entries with that author (0 for an author
    that is not listed), and the counts add up to the total. *)
Theorem by_author_counts (c : HashChain) :
  ∃ body : app.statistics_body,
    app.get_statistics (Some c) = Return body
    ∧ app.total_amendments body = Z.of_nat (length (chain c))
    ∧ (∀ name, app.dict_get (app.by_author body) name 0
               = Z.of_nat (length (written_by name (chain c))))
    ∧ NoDup (map fst (app.by_author body))
    ∧ sum_values (app.by_author body) = app.total_amendments body.
Proof.
  unfold app.get_statistics. rewrite get_history_run. cbn [fst].
  rewrite !count_type_rows by apply row_amendment.
  destruct (count_authors_rows (chain c) history_row [] row_amendment (NoDup_nil_2))
    as (authors & -> & Hget & Hkeys & Hsum).
  eexists. split; [reflexivity|].
  cbn [app.total_amendments app.by_author]. rewrite length_imap.
  split; [reflexivity|]. split; [|split; [exact Hkeys|]].
  - intros name. rewrite Hget. cbn. lia.
  - rewrite Hsum. cbn. lia.
Qed.

(** ** Ingestion *)





(** ** The two ledgers *)




